(** * EMA crossing monitor: the indicator and alert engine

  A shallow embedding of [src/utils.ts], [src/types.ts] and of the
  engine part of [src/App.tsx] (seeding, the kline message handler and
  [triggerAlert]), with the properties stated by the specification.

  JavaScript numbers are IEEE 754 binary64 values: they are modelled by
  Rocq's primitive floats, which are the same format with the same
  rounding, so that [NaN] and rounding behave as in the program.
  Millisecond timestamps are integers far below 2^53 and are kept in [Z]. *)

From Stdlib Require Import ZArith List String Ascii Floats Uint63 Lia Bool.
From stdpp Require Import gmap strings list sorting.

Set Warnings "-inexact-float".

(** ** JavaScript values used by the program *)

Module JS.

(** A value of static type [number | null], which at run time may also be
    [undefined] (a read past the end of an array, or of a hole). *)
Inductive value : Type :=
| VNum (f : float)
| VNull
| VUndefined.

(** The abstract operation ToNumber, applied by [+], [-], [*], [/] and by
    the relational operators to their non-string operands. *)
Definition ToNumber (v : value) : float :=
  match v with
  | VNum f => f
  | VNull => 0%float
  | VUndefined => nan
  end.

(** An array of numbers; [None] is a hole. *)
Abbreviation array := (list (option float)).

(** [a[i]]: a hole or an index past the end reads [undefined]. *)
Definition get (a : array) (i : nat) : value :=
  match a !! i with
  | Some (Some f) => VNum f
  | _ => VUndefined
  end.

(** [a[i] = v]: writing past the end extends the array with holes. *)
Fixpoint set (a : array) (i : nat) (v : float) : array :=
  match i, a with
  | O, [] => [Some v]
  | O, _ :: t => Some v :: t
  | S j, [] => None :: set [] j v
  | S j, x :: t => x :: set t j v
  end.

(** [a[a.length - 1]]; index [-1] of an empty array is not an element. *)
Definition last (a : array) : value :=
  match length a with
  | O => VUndefined
  | S n => get a n
  end.

(** A dense array literal, as produced by [Array.prototype.map]. *)
Definition dense (l : list float) : array := Some <$> l.

(** An integer-valued number; the conversion is exact below 2^53 (the
    program's periods are 20 and 100). *)
Definition of_nat (n : nat) : float :=
  PrimFloat.of_uint63 (Uint63.of_Z (Z.of_nat n)).

(** [s.toUpperCase()] on ASCII text. *)
Definition upper_ascii (c : ascii) : ascii :=
  let n := nat_of_ascii c in
  if (97 <=? n)%nat && (n <=? 122)%nat then ascii_of_nat (n - 32) else c.

Fixpoint toUpperCase (s : string) : string :=
  match s with
  | EmptyString => EmptyString
  | String c r => String (upper_ascii c) (toUpperCase r)
  end.

End JS.

(** ** [src/utils.ts] *)

Module Utils.
Import JS.

(** The first loop of [calculateEMA]:
    [for (let i = 0; i < period; i++) sum += data[i]];
    [n] is the number of iterations left. *)
Fixpoint sum_loop (data : array) (n i : nat) (sum : float) : float :=
  match n with
  | O => sum
  | S n' => sum_loop data n' (S i) (sum + ToNumber (get data i))%float
  end.

(** The second loop of [calculateEMA]:
    [for (let i = period; i < data.length; i++) ...];
    [n] is the number of iterations left, [data.length - i]. *)
Fixpoint ema_loop (data : array) (k : float) (n i : nat)
         (prevEma : float) (ema : array) : array :=
  match n with
  | O => ema
  | S n' =>
      let currentEma := ((ToNumber (get data i) - prevEma) * k + prevEma)%float in
      ema_loop data k n' (S i) currentEma (set ema i currentEma)
  end.

Definition calculateEMA (data : list float) (period : nat) : array :=
  let data := dense data in
  let k := (2 / (of_nat period + 1))%float in
  let ema : array := [] in
  let sum := sum_loop data period 0 0%float in
  let prevEma := (sum / of_nat period)%float in
  (* [ema[period - 1] = prevEma]; with [period = 0] the key is [-1],
     which is a property of the object and not an element. *)
  let ema := match period with O => ema | S p => set ema p prevEma end in
  ema_loop data k (length data - period) period prevEma ema.

Definition calculateSingleEMA (currentPrice prevEma : float) (period : nat) : float :=
  let k := (2 / (of_nat period + 1))%float in
  ((currentPrice - prevEma) * k + prevEma)%float.

(** [SYMBOLS_MAP], as (key, value) pairs in insertion order, which is the
    order of [Object.keys]. *)
Definition SYMBOLS_MAP : list (string * string) :=
  [ ("icpusdt.p", "ICPUSDT");
    ("btcusdt.p", "BTCUSDT");
    ("beatusdt.p", "BEAMXUSDT");
    ("ethusdt.p", "ETHUSDT");
    ("zecusdt.p", "ZECUSDT");
    ("strkusdt.p", "STRKUSDT");
    ("hypeusdt.p", "HYPEUSDT");
    ("taousdt.p", "TAOUSDT");
    ("aaveusdt.p", "AAVEUSDT");
    ("solusdt.p", "SOLUSDT");
    ("asterusdt.p", "ASTRUSDT") ]%string.

End Utils.

(** ** [src/types.ts] *)

Module Types.
Import JS.

Record KlineData : Type := mkKline {
  time : Z;
  open : float;
  high : float;
  low : float;
  close : float
}.

Record PairStatus : Type := mkPair {
  symbol : string;
  price : value;
  ema20 : value;
  ema100 : value;
  lastTouch : option Z;
  isTouching : bool;
  history : list KlineData
}.

Inductive AlertType : Type := bullish_cross | bearish_cross | touch.

Record AlertEvent : Type := mkAlert {
  id : string;
  a_symbol : string;
  timestamp : Z;
  a_price : float;
  type : AlertType
}.

End Types.

(** ** [src/App.tsx]: seeding, the kline handler and [triggerAlert] *)

Module App.
Import JS Utils Types.

(** *** Seeding ([initPairs]) *)

(** What [fetch] followed by [response.json()] gives for one instrument:
    an exception (network failure, invalid JSON, or a row on which
    [data.map] throws), a JSON value that is not an array (the error
    object of the exchange), or an array of rows, here already mapped to
    [KlineData] by [parseFloat]. *)
Inductive Response : Type :=
| Threw
| NotArray
| Rows (klines : list KlineData).

(** The object stored at [initialData[symbol]]. *)
Definition seedPair (rawSymbol : string) (klines : list KlineData) : PairStatus :=
  let closes := close <$> klines in
  let ema20Arr := calculateEMA closes 20 in
  let ema100Arr := calculateEMA closes 100 in
  let lastClose := last (dense closes) in
  let e20 := last ema20Arr in
  let e100 := last ema100Arr in
  {| symbol := rawSymbol;
     price := lastClose;
     ema20 := e20;
     ema100 := e100;
     lastTouch := None;
     isTouching := false;
     history := klines |}.

(** One iteration of [for (const rawSymbol of PAIRS)]: the [try] block
    with its [Array.isArray] guard; the [catch] only logs. *)
Definition initStep (fetch : string -> Response)
           (initialData : gmap string PairStatus) (entry : string * string)
  : gmap string PairStatus :=
  let '(rawSymbol, sym) := entry in
  match fetch sym with
  | Rows klines => <[sym := seedPair rawSymbol klines]> initialData
  | NotArray => initialData
  | Threw => initialData
  end.

Definition initPairsOver (pairs : list (string * string))
           (fetch : string -> Response) : gmap string PairStatus :=
  foldl (initStep fetch) ∅ pairs.

Definition initPairs (fetch : string -> Response) : gmap string PairStatus :=
  initPairsOver SYMBOLS_MAP fetch.

(** *** The component state and what a handler closure sees *)

(** The two [useState] cells the engine writes. *)
Record State : Type := mkState {
  pairsData : gmap string PairStatus;
  alerts : list AlertEvent
}.

(** The values of [alerts] and [notificationPermission] captured by the
    closures of one render.  [ws.onmessage] and [triggerAlert] read these
    captured values, whereas the updaters passed to [setPairsData] and
    [setAlerts] receive the current state.  [connectWebSocket] is called
    from the mount effect (and from its own [onclose] timer), so the
    program runs the handler with the first render's values. *)
Record Render : Type := mkRender {
  r_alerts : list AlertEvent;
  r_granted : bool   (* [notificationPermission === 'granted'] *)
}.

Definition firstRender (granted : bool) : Render :=
  {| r_alerts := []; r_granted := granted |}.

(** The readings of the outside world made while one message is handled:
    [Date.now()] in the duplicate test, [Date.now()] and [Math.random()]
    in [triggerAlert]. *)
Record Env : Type := mkEnv {
  now_check : Z;
  now_alert : Z;
  random_id : string
}.

(** The calls made to the notification and audio collaborators; the text
    of a notification is determined by these three arguments. *)
Inductive Effect : Type :=
| ShowNotification (ty : AlertType) (rawSymbol : string) (price : float)
| PlayAudio.

(** A parsed websocket message: [msg.e], [msg.s], and of [msg.k] the
    fields [t], [parseFloat(o)], [parseFloat(h)], [parseFloat(l)],
    [parseFloat(c)] and [x]. *)
Record Message : Type := mkMessage {
  e : string;
  s : string;
  k_t : Z;
  k_o : float;
  k_h : float;
  k_l : float;
  k_c : float;
  k_x : bool
}.

(** *** [triggerAlert] *)

Definition newAlertOf (env : Env) (sym : string) (price : float)
           (ty : AlertType) : AlertEvent :=
  {| id := random_id env;
     a_symbol := toUpperCase sym;
     timestamp := now_alert env;
     a_price := price;
     type := ty |}.

(** [setAlerts(prev => [newAlert, ...prev].slice(0, 50))], then the
    notification (if permitted) and the sound.  This is the call when
    [new Notification(...)] returns; [Fallible.triggerAlert] adds the case
    where it throws. *)
Definition triggerAlert (r : Render) (env : Env) (sym : string)
           (price : float) (ty : AlertType) (prev : list AlertEvent)
  : list AlertEvent * list Effect :=
  let rawSymbol := toUpperCase sym in
  let newAlert := newAlertOf env sym price ty in
  (take 50 (newAlert :: prev),
   (if r_granted r then [ShowNotification ty rawSymbol price] else [])
     ++ [PlayAudio]).

(** *** The kline handler *)

(** [lastAlert && lastAlert.symbol === current.symbol &&
    (Date.now() - lastAlert.timestamp < 300000)] with
    [lastAlert = alerts[0]]. *)
Definition isDuplicate (r : Render) (env : Env) (current : PairStatus) : bool :=
  match r_alerts r !! 0%nat with
  | None => false
  | Some lastAlert =>
      String.eqb (a_symbol lastAlert) (symbol current)
      && (now_check env - timestamp lastAlert <? 300000)%Z
  end.

(** [diff <= threshold] with [diff = Math.abs(newEma20 - newEma100)] and
    [threshold = newEma100 * 0.00015]. *)
Definition touching (newEma20 newEma100 : float) : bool :=
  let diff := abs (newEma20 - newEma100) in
  let threshold := (newEma100 * 0.00015)%float in
  (diff <=? threshold)%float.

(** [a > b] on numbers. *)
Definition gt (a b : float) : bool := (b <? a)%float.

(** [newHistory] of the updater. *)
Definition pushHistory (msg : Message) (hist : list KlineData) : list KlineData :=
  let newHistory := hist in
  if k_x msg then
    let newHistory :=
      newHistory ++ [ {| time := k_t msg; open := k_o msg; high := k_h msg;
                         low := k_l msg; close := k_c msg |} ] in
    if (200 <? length newHistory)%nat then drop 1 newHistory else newHistory
  else newHistory.

(** A call [triggerAlert(symbol, price, type)]. *)
Definition Call : Type := (string * float * AlertType)%type.

(** The calls to [triggerAlert] made by the updater, in order: the block
    [if (crossed || isTouching) { ... }]. *)
Definition alertBlock (r : Render) (env : Env) (current : PairStatus)
           (close : float) (crossed isAbove isTouching : bool) : list Call :=
  if crossed || isTouching then
    if negb (isDuplicate r env current) then
      if crossed then
        let ty := if isAbove then bullish_cross else bearish_cross in
        [ (symbol current, close, ty) ]
      else if isTouching then
        [ (symbol current, close, touch) ]
      else []
    else []
  else [].

(** Running the calls against the alert log. *)
Fixpoint perform (r : Render) (env : Env) (calls : list Call)
         (log : list AlertEvent) : list AlertEvent * list Effect :=
  match calls with
  | [] => (log, [])
  | (sym, price, ty) :: rest =>
      let '(log1, fx1) := triggerAlert r env sym price ty log in
      let '(log2, fx2) := perform r env rest log1 in
      (log2, fx1 ++ fx2)
  end.

(** The function passed to [setPairsData], together with the alert log
    and the effects of the [triggerAlert] calls it makes.  This is the
    updater when it returns: [prev[symbol]] is read as a property of the
    store's own, and no call throws; [Fallible.updater] adds the two ways in
    which it throws. *)
Definition updater (r : Render) (env : Env) (msg : Message) (st : State)
  : State * list Effect :=
  let prev := pairsData st in
  match prev !! s msg with
  | None => (st, [])
  | Some current =>
      let close := k_c msg in
      let isFinal := k_x msg in
      let prevEma20 := ToNumber (ema20 current) in
      let prevEma100 := ToNumber (ema100 current) in
      let newEma20 := calculateSingleEMA close prevEma20 20 in
      let newEma100 := calculateSingleEMA close prevEma100 100 in
      let isTouching := touching newEma20 newEma100 in
      let wasAbove := gt prevEma20 prevEma100 in
      let isAbove := gt newEma20 newEma100 in
      let crossed := negb (Bool.eqb wasAbove isAbove) in
      let calls := alertBlock r env current close crossed isAbove isTouching in
      let '(log, fx) := perform r env calls (alerts st) in
      let newHistory := pushHistory msg (history current) in
      ({| pairsData :=
            <[s msg := {| symbol := symbol current;
                          price := VNum close;
                          ema20 := VNum newEma20;
                          ema100 := VNum newEma100;
                          lastTouch := lastTouch current;
                          isTouching := isTouching;
                          history := newHistory |}]> prev;
          alerts := log |}, fx)
  end.

(** [ws.onmessage]. *)
Definition onmessage (r : Render) (env : Env) (msg : Message) (st : State)
  : State * list Effect :=
  if String.eqb (e msg) "kline" then updater r env msg st else (st, []).

(** The handler installed by one call of [connectWebSocket], run over the
    messages delivered in order. *)
Fixpoint run (r : Render) (feed : list (Env * Message)) (st : State)
  : State * list Effect :=
  match feed with
  | [] => (st, [])
  | (env, msg) :: rest =>
      let '(st1, fx1) := onmessage r env msg st in
      let '(st2, fx2) := run r rest st1 in
      (st2, fx1 ++ fx2)
  end.

(** The states the engine goes through: seeding, then messages.  The index
    is the time of the last message handled; the clock read by
    [triggerAlert] does not run backwards from one message to the next. *)
Inductive reachable (fetch : string -> Response) : Z -> State -> Prop :=
| reach_init t :
    reachable fetch t {| pairsData := initPairs fetch; alerts := [] |}
| reach_message t r env msg st :
    reachable fetch t st ->
    (t <= now_alert env)%Z ->
    reachable fetch (now_alert env) (onmessage r env msg st).1.

End App.

(** ** The specification's formulas, for comparison with the code *)

Module Spec.
Import JS Types.

(** [k = 2/(period+1)]. *)
Definition smoothing (period : nat) : float := (2 / (of_nat period + 1))%float.

(** [stepEMA]: [(newClose - prevEma) * (2/(period+1)) + prevEma]. *)
Definition stepEMA (newClose prevEma : float) (period : nat) : float :=
  ((newClose - prevEma) * smoothing period + prevEma)%float.

(** The arithmetic mean of a sequence of closes, summed in order. *)
Definition mean (closes : list float) : float :=
  (fold_left PrimFloat.add closes 0 / of_nat (length closes))%float.

(** The recurrence [ema[i] = (close[i] - ema[i-1]) * k + ema[i-1]] run
    over the closes that follow the seed. *)
Fixpoint recurrence (k prev : float) (closes : list float) : list float :=
  match closes with
  | [] => []
  | c :: rest =>
      let cur := ((c - prev) * k + prev)%float in
      cur :: recurrence k cur rest
  end.

(** The signal selection policy: cross first, then touch. *)
Definition select (crossed isAbove isTouching : bool) : option AlertType :=
  if crossed then Some (if isAbove then bullish_cross else bearish_cross)
  else if isTouching then Some touch
  else None.

(** The other direction of a cross. *)
Definition flip (ty : AlertType) : AlertType :=
  match ty with
  | bullish_cross => bearish_cross
  | bearish_cross => bullish_cross
  | touch => touch
  end.

(** [crossed = wasAbove != isAbove], with [wasAbove = prevEma20 > prevEma100]
    and [isAbove = newEma20 > newEma100]. *)
Definition crossed (prevEma20 prevEma100 newEma20 newEma100 : float) : bool :=
  xorb (App.gt prevEma20 prevEma100) (App.gt newEma20 newEma100).

(** The signals emitted by one tick: none when the tick is suppressed, and
    otherwise what the selection policy picks. *)
Definition emitted (suppressed : bool) (sym : string) (close : float)
           (crossed isAbove isTouching : bool) : list App.Call :=
  if suppressed then []
  else match select crossed isAbove isTouching with
       | Some ty => [ (sym, close, ty) ]
       | None => []
       end.

(** The deduplication rule, on the log the sequencer consults: the head
    exists, has symbol [sym], and is less than 300,000 ms old. *)
Definition suppressed (log : list AlertEvent) (sym : string) (now : Z) : Prop :=
  exists lastAlert rest,
    log = lastAlert :: rest
    /\ a_symbol lastAlert = sym
    /\ (now - timestamp lastAlert < 300000)%Z.

(** Newest first: timestamps do not increase along the log. *)
Definition newest_first (log : list AlertEvent) : Prop :=
  StronglySorted (fun a b => (timestamp b <= timestamp a)%Z) log.

(** The EMA pair of a tick, from the stored pair and the close. *)
Definition newEma20 (current : PairStatus) (close : float) : float :=
  stepEMA close (ToNumber (ema20 current)) 20.

Definition newEma100 (current : PairStatus) (close : float) : float :=
  stepEMA close (ToNumber (ema100 current)) 100.

(** The signal detector on the four EMA values of a tick. *)
Definition detect (suppressed : bool) (sym : string) (close : float)
           (prevEma20 prevEma100 newEma20 newEma100 : float) : list App.Call :=
  emitted suppressed sym close
          (crossed prevEma20 prevEma100 newEma20 newEma100)
          (App.gt newEma20 newEma100)
          (App.touching newEma20 newEma100).

(** The calls made for a tick on [current]. *)
Definition tickCalls (r : App.Render) (env : App.Env) (current : PairStatus)
           (msg : App.Message) : list App.Call :=
  let close := App.k_c msg in
  detect (App.isDuplicate r env current) (symbol current) close
         (ToNumber (ema20 current)) (ToNumber (ema100 current))
         (newEma20 current close) (newEma100 current close).

(** The same call with the direction of the cross reversed. *)
Definition flipCall (c : App.Call) : App.Call :=
  let '(sym, price, ty) := c in (sym, price, flip ty).

(** The candle built from the fields of a tick. *)
Definition candleOf (msg : App.Message) : KlineData :=
  {| time := App.k_t msg; open := App.k_o msg; high := App.k_h msg;
     low := App.k_l msg; close := App.k_c msg |}.

(** The instrument state written for a tick, from the previous state of
    the instrument and the fields of the tick. *)
Definition applyTick (current : PairStatus) (msg : App.Message) : PairStatus :=
  let close := App.k_c msg in
  {| symbol := symbol current;
     price := VNum close;
     ema20 := VNum (newEma20 current close);
     ema100 := VNum (newEma100 current close);
     lastTouch := lastTouch current;
     isTouching := App.touching (newEma20 current close) (newEma100 current close);
     history := App.pushHistory msg (history current) |}.

(** Not a number. *)
Definition isNaN (v : value) : Prop :=
  exists f, v = VNum f /\ is_nan f = true.

(** An array none of whose indices holds a value. *)
Definition fully_undefined (a : array) : Prop :=
  forall i, get a i = VUndefined.

End Spec.

(** ** A concrete feed, used to run the engine *)

Module Scenario.
Import JS Utils Types App.
Local Open Scope string_scope.

(** 150 candles, all at price 100. *)
Definition flatSeed : list KlineData := replicate 150 (mkKline 0 100 100 100 100).

(** Three candles only. *)
Definition shortSeed : list KlineData :=
  [ mkKline 0 1 1 1 1; mkKline 1 2 2 2 2; mkKline 2 3 3 3 3 ].

(** The exchange answers for BTCUSDT only. *)
Definition fetchBtc (sym : string) : Response :=
  if String.eqb sym "BTCUSDT" then Rows flatSeed else Threw.

(** The exchange answers every request with three candles. *)
Definition fetchShort (sym : string) : Response := Rows shortSeed.

Definition st0 : State := {| pairsData := initPairs fetchBtc; alerts := [] |}.

(** The stored BTCUSDT instrument after seeding with [flatSeed]. *)
Definition btc : PairStatus :=
  {| symbol := "btcusdt.p"; price := VNum 100; ema20 := VNum 100;
     ema100 := VNum 100; lastTouch := None; isTouching := false;
     history := flatSeed |}.

(** A kline message for BTCUSDT at one price. *)
Definition tick (t : Z) (c : float) (x : bool) : Message :=
  mkMessage "kline" "BTCUSDT" t c c c c x.

(** The clock reads [t] throughout the handling of one message. *)
Definition at_time (t : Z) (i : string) : Env := mkEnv t t i.

(** The state after a first tick at price 100, handled at time 1,000,000. *)
Definition st1 : State :=
  (onmessage (firstRender false) (at_time 1000000 "a") (tick 1 100 false) st0).1.

(** The alert recorded by that tick. *)
Definition alert1 : AlertEvent :=
  {| id := "a"; a_symbol := "BTCUSDT.P"; timestamp := 1000000;
     a_price := 100; type := touch |}.

(** The alert recorded by the same tick one second later. *)
Definition alert2 : AlertEvent :=
  {| id := "b"; a_symbol := "BTCUSDT.P"; timestamp := 1001000;
     a_price := 100; type := touch |}.

End Scenario.

(** ** Further parts of the program *)

Module Stream.
Import JS Utils.

(** [calculateSingleEMA] applied to a series of closes in turn, each result
    being the previous EMA of the next call, as the handler does tick after
    tick. *)
Definition stepAll (period : nat) (ema : float) (closes : list float) : float :=
  foldl (fun prevEma close => calculateSingleEMA close prevEma period) ema closes.

End Stream.

(** The calls of [ws.onmessage] to [triggerAlert]. *)

Module Calls.
Import JS Utils Types App.

(** The calls to [triggerAlert] that the updater makes for a message, in
    order: none for a message that is not a kline or whose symbol is not in
    the store. *)
Definition callsOf (r : Render) (env : Env) (msg : Message) (st : State)
  : list Call :=
  if String.eqb (e msg) "kline" then
    match pairsData st !! s msg with
    | None => []
    | Some current =>
        let close := k_c msg in
        let prevEma20 := ToNumber (ema20 current) in
        let prevEma100 := ToNumber (ema100 current) in
        let newEma20 := calculateSingleEMA close prevEma20 20 in
        let newEma100 := calculateSingleEMA close prevEma100 100 in
        let isTouching := touching newEma20 newEma100 in
        let wasAbove := gt prevEma20 prevEma100 in
        let isAbove := gt newEma20 newEma100 in
        let crossed := negb (Bool.eqb wasAbove isAbove) in
        alertBlock r env current close crossed isAbove isTouching
    end
  else [].

End Calls.

(** The instrument card of the dashboard: [diff] and [isBullish] of the
    [sortedPairs.map] callback. *)

Module Card.
Import JS Utils Types App.

(** Truthiness of a value of type [number | null]: [0], [-0], [NaN], [null]
    and [undefined] are falsy. *)
Definition truthy (v : value) : bool :=
  match v with
  | VNum f => negb ((f =? 0)%float || is_nan f)
  | VNull => false
  | VUndefined => false
  end.

(** [pair.ema20 && pair.ema100 ? (pair.ema20 - pair.ema100) : 0] *)
Definition diff (pair : PairStatus) : float :=
  if truthy (ema20 pair) && truthy (ema100 pair)
  then (ToNumber (ema20 pair) - ToNumber (ema100 pair))%float
  else 0%float.

(** [diff > 0]: the card reads BULLISH when true and BEARISH otherwise. *)
Definition isBullish (pair : PairStatus) : bool := gt (diff pair) 0.

(** [Math.abs(diff)], the distance shown on the card. *)
Definition distance (pair : PairStatus) : float := abs (diff pair).

End Card.

(** ** The handler with its exceptions *)

Module Fallible.
Import JS Utils Types App.

(** The names under which a property read on a plain object finds a member
    of [Object.prototype] when the object has no property of its own of that
    name: the standard methods and the [__proto__] accessor.  The value read
    is a function, or the prototype object itself: it is truthy and has no
    [ema20], [ema100], [symbol] or [history] property. *)
Definition objectPrototypeKeys : list string :=
  [ "constructor"; "__defineGetter__"; "__defineSetter__"; "hasOwnProperty";
    "__lookupGetter__"; "__lookupSetter__"; "isPrototypeOf";
    "propertyIsEnumerable"; "toString"; "valueOf"; "__proto__";
    "toLocaleString" ]%string.

(** [prev[symbol]] on the plain object [prev]. *)
Inductive Read : Type :=
| Own (current : PairStatus)
| Inherited
| Missing.

Definition read (prev : gmap string PairStatus) (sym : string) : Read :=
  match prev !! sym with
  | Some current => Own current
  | None => if bool_decide (sym ∈ objectPrototypeKeys) then Inherited else Missing
  end.

(** How the function passed to [setPairsData] ends.  [Returned st fx]: it
    returned the store of [st]; [Threw log fx]: an exception left it, so that
    it returned no store.  In both, the alert log is the one that results
    from the calls of [setAlerts] made, and the effects are those produced
    before the end. *)
Inductive Outcome : Type :=
| Returned (st : State) (fx : list Effect)
| Threw (log : list AlertEvent) (fx : list Effect).

(** [triggerAlert], where [ctorThrows] tells whether [new Notification(...)]
    throws.  The constructor is called only when permission is granted, and
    it is not inside a [try]: when it throws, [setAlerts] has been called,
    nothing is shown, and the sound, which comes after it, is not played.
    The boolean of the result tells whether the call threw. *)
Definition triggerAlert (ctorThrows : bool) (r : Render) (env : Env)
           (sym : string) (price : float) (ty : AlertType)
           (prev : list AlertEvent) : bool * (list AlertEvent * list Effect) :=
  let rawSymbol := toUpperCase sym in
  let newAlert := newAlertOf env sym price ty in
  let log := take 50 (newAlert :: prev) in
  if r_granted r then
    if ctorThrows then (true, (log, []))
    else (false, (log, [ShowNotification ty rawSymbol price; PlayAudio]))
  else (false, (log, [PlayAudio])).

(** Running the calls of the updater until one throws. *)
Fixpoint perform (ctorThrows : bool) (r : Render) (env : Env)
         (calls : list Call) (log : list AlertEvent)
  : bool * (list AlertEvent * list Effect) :=
  match calls with
  | [] => (false, (log, []))
  | (sym, price, ty) :: rest =>
      let '(threw1, (log1, fx1)) := triggerAlert ctorThrows r env sym price ty log in
      if threw1 then (true, (log1, fx1))
      else
        let '(threw2, (log2, fx2)) := perform ctorThrows r env rest log1 in
        (threw2, (log2, fx1 ++ fx2))
  end.

(** The function passed to [setPairsData].  When [prev[symbol]] is a member
    of [Object.prototype], both EMAs read [undefined], hence NaN: no
    comparison holds, the alert block is skipped, and
    [[...current.history]] throws, [current.history] being [undefined]. *)
Definition updater (ctorThrows : bool) (r : Render) (env : Env) (msg : Message)
           (st : State) : Outcome :=
  let prev := pairsData st in
  match read prev (s msg) with
  | Missing => Returned st []
  | Inherited => Threw (alerts st) []
  | Own current =>
      let close := k_c msg in
      let prevEma20 := ToNumber (ema20 current) in
      let prevEma100 := ToNumber (ema100 current) in
      let newEma20 := calculateSingleEMA close prevEma20 20 in
      let newEma100 := calculateSingleEMA close prevEma100 100 in
      let isTouching := touching newEma20 newEma100 in
      let wasAbove := gt prevEma20 prevEma100 in
      let isAbove := gt newEma20 newEma100 in
      let crossed := negb (Bool.eqb wasAbove isAbove) in
      let calls := alertBlock r env current close crossed isAbove isTouching in
      let '(threw, (log, fx)) := perform ctorThrows r env calls (alerts st) in
      if threw then Threw log fx
      else
        let newHistory := pushHistory msg (history current) in
        Returned
          {| pairsData :=
               <[s msg := {| symbol := symbol current;
                             price := VNum close;
                             ema20 := VNum newEma20;
                             ema100 := VNum newEma100;
                             lastTouch := lastTouch current;
                             isTouching := isTouching;
                             history := newHistory |}]> prev;
             alerts := log |}
          fx
  end.

(** [ws.onmessage]. *)
Definition onmessage (ctorThrows : bool) (r : Render) (env : Env)
           (msg : Message) (st : State) : Outcome :=
  if String.eqb (e msg) "kline" then updater ctorThrows r env msg st
  else Returned st [].

End Fallible.

(** ** Facts about binary64 numbers *)

Module FloatFacts.

Lemma SFcompare_refl (x : spec_float) :
  x <> S754_nan -> SFcompare x x = Some Eq.
Proof.
  destruct x as [sg | sg | | sg m ex]; simpl; intros Hx; try congruence.
  - by destruct sg.
  - rewrite Z.compare_refl, Pos.compare_cont_refl. by destruct sg.
Qed.

Lemma is_nan_spec (f : float) : is_nan f = true <-> Prim2SF f = S754_nan.
Proof.
  unfold is_nan. rewrite FloatAxioms.eqb_spec. unfold SFeqb. split.
  - intros H. destruct (Prim2SF f) as [sg | sg | | sg m ex] eqn:E; [| |done|];
      rewrite SFcompare_refl in H by discriminate; discriminate.
  - intros ->. reflexivity.
Qed.

Lemma is_nan_add_l (x y : float) : is_nan x = true -> is_nan (x + y) = true.
Proof.
  rewrite !is_nan_spec, FloatAxioms.add_spec. intros ->. reflexivity.
Qed.

Lemma is_nan_add_r (x y : float) : is_nan y = true -> is_nan (x + y) = true.
Proof.
  rewrite !is_nan_spec, FloatAxioms.add_spec. intros ->.
  destruct (Prim2SF x) as [[]|[]| |]; reflexivity.
Qed.

Lemma is_nan_div_l (x y : float) : is_nan x = true -> is_nan (x / y) = true.
Proof.
  rewrite !is_nan_spec, FloatAxioms.div_spec. intros ->. reflexivity.
Qed.

Lemma SFcompare_antisym (x y : spec_float) :
  SFcompare y x = option_map CompOpp (SFcompare x y).
Proof.
  destruct x as [sx | sx | | sx mx ex], y as [sy | sy | | sy my ey]; simpl;
    try reflexivity;
    try (by destruct sx); try (by destruct sy);
    try (by destruct sx, sy).
  rewrite (Z.compare_antisym ey ex).
  destruct sx, sy; simpl; try reflexivity;
    destruct (ey ?= ex)%Z; simpl; try reflexivity.
  - change PosDef.Pos.compare_cont with Pos.compare_cont.
    rewrite (Pos.compare_cont_antisym mx my Eq). reflexivity.
  - change PosDef.Pos.compare_cont with Pos.compare_cont.
    rewrite (Pos.compare_cont_antisym mx my Eq). reflexivity.
Qed.

(** [a < b] and [b < a] never hold together. *)
Lemma ltb_asym (x y : float) : (x <? y)%float = true -> (y <? x)%float = false.
Proof.
  rewrite !FloatAxioms.ltb_spec. unfold SFltb.
  rewrite (SFcompare_antisym (Prim2SF x) (Prim2SF y)).
  destruct (SFcompare (Prim2SF x) (Prim2SF y)) as [[]|]; simpl; congruence.
Qed.

(** Equal numbers are not strictly ordered. *)
Lemma eqb_not_ltb (x y : float) : (x =? y)%float = true -> (y <? x)%float = false.
Proof.
  rewrite FloatAxioms.eqb_spec, FloatAxioms.ltb_spec. unfold SFeqb, SFltb.
  rewrite (SFcompare_antisym (Prim2SF x) (Prim2SF y)).
  destruct (SFcompare (Prim2SF x) (Prim2SF y)) as [[]|]; simpl; congruence.
Qed.

End FloatFacts.

(** ** [calculateEMA] and [calculateSingleEMA] *)

Module UtilsFacts.
Import JS Utils Spec FloatFacts.

(** *** Arrays *)

Lemma set_nil (p : nat) (v : float) : set [] p v = replicate p None ++ [Some v].
Proof. induction p as [|p IH]; simpl; [done|]. by rewrite IH. Qed.

Lemma set_end (a : array) (v : float) : set a (length a) v = a ++ [Some v].
Proof. induction a as [|x a IH]; simpl; [done|]. by rewrite IH. Qed.

Lemma get_dense (data : list float) (i : nat) (c : float) :
  data !! i = Some c -> get (dense data) i = VNum c.
Proof.
  intros H. unfold get, dense. by rewrite list_lookup_fmap, H.
Qed.

Lemma get_beyond (a : array) (i : nat) : length a <= i -> get a i = VUndefined.
Proof. intros H. unfold get. by rewrite lookup_ge_None_2. Qed.

Lemma get_hole (p : nat) (rest : array) (i : nat) :
  i < p -> get (replicate p None ++ rest) i = VUndefined.
Proof.
  intros H. unfold get.
  rewrite lookup_app_l by (rewrite length_replicate; lia).
  by rewrite lookup_replicate_2.
Qed.

Lemma get_after_holes (p : nat) (rest : array) (i : nat) :
  get (replicate p None ++ rest) (p + i) = get rest i.
Proof.
  unfold get. rewrite lookup_app_r by (rewrite length_replicate; lia).
  rewrite length_replicate. by replace (p + i - p) with i by lia.
Qed.

Lemma get_first_after_holes (p : nat) (rest : array) :
  get (replicate p None ++ rest) p = get rest 0.
Proof. rewrite <- (get_after_holes p rest 0). by rewrite Nat.add_0_r. Qed.

(** *** The two loops on a dense input *)

Lemma sum_loop_dense (data : list float) (n i : nat) (acc : float) :
  i + n <= length data ->
  sum_loop (dense data) n i acc
  = fold_left PrimFloat.add (take n (drop i data)) acc.
Proof.
  revert i acc. induction n as [|n IH]; intros i acc Hlen; simpl; [done|].
  destruct (lookup_lt_is_Some_2 data i) as [c Hc]; [lia|].
  rewrite (get_dense _ _ _ Hc), IH by lia. simpl.
  rewrite (drop_S _ _ _ Hc). reflexivity.
Qed.

Lemma ema_loop_dense (data : list float) (k : float) (n i : nat)
      (prev : float) (ema : array) :
  length ema = i -> i + n <= length data ->
  ema_loop (dense data) k n i prev ema
  = ema ++ (Some <$> recurrence k prev (take n (drop i data))).
Proof.
  revert i prev ema. induction n as [|n IH]; intros i prev ema Hi Hlen; simpl.
  - by rewrite app_nil_r.
  - destruct (lookup_lt_is_Some_2 data i) as [c Hc]; [lia|].
    rewrite (get_dense _ _ _ Hc), (drop_S _ _ _ Hc). simpl.
    rewrite <- Hi at 2. rewrite set_end, IH.
    + by rewrite <- app_assoc.
    + rewrite length_app. simpl. lia.
    + lia.
Qed.

(** The result of [calculateEMA] when the seed window fits in the input. *)
Lemma calculateEMA_closed (data : list float) (p : nat) :
  S p <= length data ->
  calculateEMA data (S p)
  = replicate p None
    ++ Some (mean (take (S p) data))
    :: (Some <$> recurrence (smoothing (S p)) (mean (take (S p) data))
                                     (drop (S p) data)).
Proof.
  intros Hlen. unfold calculateEMA.
  assert (Hd : length (dense data) = length data) by apply length_fmap.
  rewrite Hd, sum_loop_dense by lia.
  rewrite drop_0, set_nil.
  rewrite ema_loop_dense.
  - unfold mean, smoothing. rewrite length_take_le by lia.
    rewrite (take_ge (drop (S p) data)) by (rewrite length_drop; lia).
    by rewrite <- app_assoc.
  - rewrite length_app, length_replicate. simpl. lia.
  - lia.
Qed.

Lemma length_recurrence (k prev : float) (cs : list float) :
  length (recurrence k prev cs) = length cs.
Proof. revert prev. induction cs as [|c cs IH]; intros prev; simpl; by rewrite ?IH. Qed.

(** Each entry after the seed is one step of the recurrence from the
    entry before it. *)
Lemma recurrence_lookup (k prev : float) (cs : list float) (j : nat) (c : float) :
  cs !! j = Some c ->
  exists e, (prev :: recurrence k prev cs) !! j = Some e
            /\ recurrence k prev cs !! j = Some ((c - e) * k + e)%float.
Proof.
  revert prev j. induction cs as [|c0 cs IH]; intros prev j Hj; [done|].
  destruct j as [|j]; simpl in *.
  - injection Hj as ->. by exists prev.
  - apply (IH ((c0 - prev) * k + prev)%float) in Hj. exact Hj.
Qed.

(** *** A short input *)

Lemma sum_loop_nan (a : array) (n i : nat) (acc : float) :
  is_nan acc = true -> is_nan (sum_loop a n i acc) = true.
Proof.
  revert i acc. induction n as [|n IH]; intros i acc H; simpl; [done|].
  apply IH. by apply is_nan_add_l.
Qed.

Lemma sum_loop_short (a : array) (n i : nat) (acc : float) :
  i <= length a -> length a < i + n -> is_nan (sum_loop a n i acc) = true.
Proof.
  revert i acc. induction n as [|n IH]; intros i acc Hi Hlen; simpl.
  - lia.
  - destruct (decide (length a = i)) as [Heq|Hne].
    + apply sum_loop_nan. rewrite get_beyond by lia. by apply is_nan_add_r.
    + apply IH; lia.
Qed.

Lemma calculateEMA_short_closed (data : list float) (p : nat) :
  length data < S p ->
  calculateEMA data (S p)
  = replicate p None
    ++ [Some (sum_loop (dense data) (S p) 0 0 / of_nat (S p))%float].
Proof.
  intros Hlen. unfold calculateEMA.
  assert (Hd : length (dense data) = length data) by apply length_fmap.
  rewrite Hd. replace (length data - S p) with 0 by lia.
  cbn [ema_loop]. by rewrite set_nil.
Qed.

Lemma calculateEMA_short_seed (data : list float) (p : nat) :
  length data < S p ->
  is_nan (sum_loop (dense data) (S p) 0 0 / of_nat (S p))%float = true.
Proof.
  intros Hlen.
  apply is_nan_div_l, sum_loop_short; unfold dense; rewrite length_fmap; lia.
Qed.

Lemma calculateEMA_short_last (data : list float) (p : nat) :
  length data < S p -> isNaN (last (calculateEMA data (S p))).
Proof.
  intros Hlen. rewrite (calculateEMA_short_closed data p Hlen).
  unfold last. rewrite length_app, length_replicate. simpl length.
  replace (p + 1) with (S p) by lia. rewrite get_first_after_holes.
  eexists. split; [reflexivity|]. by apply calculateEMA_short_seed.
Qed.

(** *** The batch computation *)

(** C4. For a period > 0 and at least [period] closes, [calculateEMA]
    returns an array as long as the input; its first [period - 1] entries
    are undefined; the entry at [period - 1] is the arithmetic mean of the
    first [period] closes; every later entry [i] is
    [(close[i] - ema[i-1]) * k + ema[i-1]] with [k = 2/(period+1)].  For the
    closes 1..20 and period 20 the seed value is 10.5. *)
Theorem calculateEMA_batch (data : list float) (period : nat) :
  0 < period -> period <= length data ->
  length (calculateEMA data period) = length data
  /\ (forall i, i < period - 1 -> get (calculateEMA data period) i = VUndefined)
  /\ get (calculateEMA data period) (period - 1) = VNum (mean (take period data))
  /\ (forall i, period <= i -> i < length data ->
        exists c prev,
          data !! i = Some c
          /\ get (calculateEMA data period) (i - 1) = VNum prev
          /\ get (calculateEMA data period) i
             = VNum ((c - prev) * (2 / (of_nat period + 1)) + prev)%float)
  /\ get (calculateEMA
            [1; 2; 3; 4; 5; 6; 7; 8; 9; 10;
             11; 12; 13; 14; 15; 16; 17; 18; 19; 20]%float 20) 19
     = VNum 10.5%float.
Proof.
  intros Hpos Hlen. destruct period as [|p]; [lia|].
  rewrite (calculateEMA_closed data p Hlen).
  set (seed := mean (take (S p) data)).
  set (tl := recurrence (smoothing (S p)) seed (drop (S p) data)).
  assert (Htl : length tl = length data - S p).
  { unfold tl. by rewrite length_recurrence, length_drop. }
  split; [|split; [|split; [|split]]].
  - rewrite length_app, length_replicate. simpl. rewrite length_fmap, Htl. lia.
  - intros i Hi. apply get_hole. lia.
  - replace (S p - 1) with (p + 0) by lia. by rewrite get_after_holes.
  - intros i Hlo Hhi.
    destruct (lookup_lt_is_Some_2 data i Hhi) as [c Hc].
    assert (Hj : drop (S p) data !! (i - S p) = Some c).
    { rewrite lookup_drop. by replace (S p + (i - S p)) with i by lia. }
    destruct (recurrence_lookup (smoothing (S p)) seed _ _ _ Hj) as (prev & Hprev & Hcur).
    fold tl in Hprev, Hcur. exists c, prev. split; [done|].
    replace (i - 1) with (p + (i - S p)) by lia.
    replace i with (p + S (i - S p)) at 2 by lia.
    rewrite !get_after_holes. unfold get.
    change (Some seed :: (Some <$> tl)) with (Some <$> (seed :: tl)).
    rewrite list_lookup_fmap, Hprev. simpl.
    by rewrite list_lookup_fmap, Hcur.
  - vm_compute. reflexivity.
Qed.

Lemma calculateEMA_batch_witness :
  length (calculateEMA [4; 6; 5]%float 2) = 3
  /\ get (calculateEMA [4; 6; 5]%float 2) 1 = VNum (mean [4; 6]%float).
Proof.
  destruct (calculateEMA_batch [4; 6; 5]%float 2) as (Hl & _ & Hs & _);
    [simpl; lia | simpl; lia |].
  split; [exact Hl | exact Hs].
Defined.

(** *** The incremental step *)

(** C5. [calculateSingleEMA] returns
    [(newClose - prevEma) * (2/(period+1)) + prevEma]: it is the
    specification's [stepEMA], a function of its three arguments alone, and
    it is the step that the batch recurrence repeats.  In particular
    [stepEMA(21, 10.5, 20)] is 11.5. *)
Theorem calculateSingleEMA_formula (newClose prevEma : float) (period : nat) :
  calculateSingleEMA newClose prevEma period
  = ((newClose - prevEma) * (2 / (of_nat period + 1)) + prevEma)%float
  /\ calculateSingleEMA newClose prevEma period = stepEMA newClose prevEma period
  /\ (forall rest,
        recurrence (smoothing period) prevEma (newClose :: rest)
        = calculateSingleEMA newClose prevEma period
          :: recurrence (smoothing period)
                        (calculateSingleEMA newClose prevEma period) rest)
  /\ calculateSingleEMA 21 10.5 20 = 11.5%float.
Proof.
  split; [reflexivity|].
  split; [reflexivity|].
  split; [intros rest; reflexivity|].
  vm_compute. reflexivity.
Qed.

(** *** Fewer closes than the period *)

(** C9, as the code has it. With fewer than [period] closes (period > 0)
    the result has length [period]; every index other than [period - 1] is
    undefined, and index [period - 1] holds the number NaN. *)
Theorem calculateEMA_short (data : list float) (period : nat) :
  0 < period -> length data < period ->
  length (calculateEMA data period) = period
  /\ (forall i, i <> period - 1 -> get (calculateEMA data period) i = VUndefined)
  /\ isNaN (get (calculateEMA data period) (period - 1)).
Proof.
  intros Hpos Hlen. destruct period as [|p]; [lia|].
  rewrite (calculateEMA_short_closed data p Hlen).
  split; [|split].
  - rewrite length_app, length_replicate. simpl. lia.
  - intros i Hi. destruct (decide (i < p)) as [Hlt|Hge].
    + by apply get_hole.
    + apply get_beyond. rewrite length_app, length_replicate. simpl. lia.
  - replace (S p - 1) with (p + 0) by lia. rewrite get_after_holes.
    eexists. split; [reflexivity|]. by apply calculateEMA_short_seed.
Qed.

Lemma calculateEMA_short_witness :
  length (calculateEMA [1; 2; 3]%float 5) = 5
  /\ isNaN (get (calculateEMA [1; 2; 3]%float 5) 4).
Proof.
  destruct (calculateEMA_short [1; 2; 3]%float 5) as (Hl & _ & Hn);
    [simpl; lia | simpl; lia |].
  split; [exact Hl | exact Hn].
Defined.

(** Three closes and period 5: fewer closes than the period, and yet index
    4 of the result holds a value. *)
Lemma calculateEMA_short_not_fully_undefined :
  length [1; 2; 3]%float < 5
  /\ ~ fully_undefined (calculateEMA [1; 2; 3]%float 5).
Proof.
  split; [simpl; lia|].
  intros H. specialize (H 4). vm_compute in H. discriminate H.
Qed.

End UtilsFacts.

(** ** Seeding *)

Module SeedFacts.
Import JS Utils Types App Spec UtilsFacts.

Lemma SYMBOLS_MAP_tickers_distinct : NoDup (SYMBOLS_MAP.*2).
Proof. compute_done. Qed.

Lemma initStep_other (fetch : string -> Response)
      (acc : gmap string PairStatus) (raw sym sym' : string) :
  sym' <> sym -> initStep fetch acc (raw, sym) !! sym' = acc !! sym'.
Proof.
  intros Hne. unfold initStep.
  destruct (fetch sym); [done|done|]. by rewrite lookup_insert_ne.
Qed.

Lemma initStep_same (fetch : string -> Response)
      (acc : gmap string PairStatus) (raw sym : string) :
  initStep fetch acc (raw, sym) !! sym
  = match fetch sym with
    | Rows klines => Some (seedPair raw klines)
    | _ => acc !! sym
    end.
Proof.
  unfold initStep. destruct (fetch sym); [done|done|]. by rewrite lookup_insert_eq.
Qed.

(** An instrument that is not in the list is left alone. *)
Lemma foldl_initStep_notin (fetch : string -> Response)
      (pairs : list (string * string)) (acc : gmap string PairStatus)
      (sym : string) :
  sym ∉ pairs.*2 -> foldl (initStep fetch) acc pairs !! sym = acc !! sym.
Proof.
  revert acc. induction pairs as [|[raw0 sym0] pairs IH]; intros acc Hnot; [done|].
  cbn [foldl fmap list_fmap snd] in *. apply not_elem_of_cons in Hnot as [Hne Hnot].
  rewrite IH by done. by apply initStep_other.
Qed.

(** The entry of an instrument depends on its own response only. *)
Lemma foldl_initStep_in (fetch : string -> Response)
      (pairs : list (string * string)) (acc : gmap string PairStatus)
      (raw sym : string) :
  NoDup (pairs.*2) -> (raw, sym) ∈ pairs ->
  foldl (initStep fetch) acc pairs !! sym
  = match fetch sym with
    | Rows klines => Some (seedPair raw klines)
    | _ => acc !! sym
    end.
Proof.
  revert acc. induction pairs as [|[raw0 sym0] pairs IH]; intros acc Hnd Hin.
  - by apply elem_of_nil in Hin.
  - simpl in Hnd. apply NoDup_cons in Hnd as [Hfresh Hnd].
    apply elem_of_cons in Hin as [Heq|Hin]; cbn [foldl].
    + injection Heq as <- <-.
      rewrite foldl_initStep_notin by done. apply initStep_same.
    + rewrite IH by done.
      assert (sym <> sym0) as Hne.
      { intros ->. apply Hfresh. apply list_elem_of_fmap. by exists (raw, sym0). }
      rewrite initStep_other by done. reflexivity.
Qed.

(** Every entry of the seeded store was built by [seedPair] from an array. *)
Lemma foldl_initStep_inv (fetch : string -> Response)
      (pairs : list (string * string)) (acc : gmap string PairStatus)
      (sym : string) (p : PairStatus) :
  foldl (initStep fetch) acc pairs !! sym = Some p ->
  acc !! sym = Some p
  \/ exists raw klines,
       (raw, sym) ∈ pairs /\ fetch sym = Rows klines /\ p = seedPair raw klines.
Proof.
  revert acc. induction pairs as [|[raw0 sym0] pairs IH]; intros acc H; [by left|].
  cbn [foldl] in H. apply IH in H as [H|(raw & klines & Hin & Hf & ->)].
  - destruct (decide (sym = sym0)) as [->|Hne].
    + rewrite initStep_same in H. destruct (fetch sym0) as [| |klines] eqn:Hf;
        [by left|by left|].
      right. exists raw0, klines. injection H as <-.
      split; [apply elem_of_cons; by left|done].
    + rewrite initStep_other in H by done. by left.
  - right. exists raw, klines. split; [apply elem_of_cons; by right|done].
Qed.

Lemma initPairs_inv (fetch : string -> Response) (sym : string) (p : PairStatus) :
  initPairs fetch !! sym = Some p ->
  exists raw klines,
    (raw, sym) ∈ SYMBOLS_MAP /\ fetch sym = Rows klines /\ p = seedPair raw klines.
Proof.
  intros H. apply foldl_initStep_inv in H as [H|H]; [|done].
  by rewrite lookup_empty in H.
Qed.

(** C2, as the code has it. An instrument whose response is not an array,
    or whose request throws, is left out of the store, whatever happens to
    the other instruments; an instrument whose response is an array is
    stored whatever the number of its candles, and with fewer than 100
    candles its stored [ema100] is NaN. *)
Theorem initPairs_entries (fetch : string -> Response) (raw sym : string) :
  (raw, sym) ∈ SYMBOLS_MAP ->
  (initPairs fetch !! sym = None <-> forall klines, fetch sym <> Rows klines)
  /\ (forall klines,
        fetch sym = Rows klines ->
        initPairs fetch !! sym = Some (seedPair raw klines)
        /\ (length klines < 100 -> isNaN (ema100 (seedPair raw klines)))).
Proof.
  intros Hin.
  assert (Hl : initPairs fetch !! sym
               = match fetch sym with
                 | Rows klines => Some (seedPair raw klines)
                 | _ => None
                 end).
  { unfold initPairs, initPairsOver.
    rewrite (foldl_initStep_in fetch _ ∅ raw sym SYMBOLS_MAP_tickers_distinct Hin).
    rewrite lookup_empty. by destruct (fetch sym). }
  rewrite Hl. split.
  - destruct (fetch sym) as [| |klines]; split; try done.
    intros H. by destruct (H klines).
  - intros klines ->. split; [done|].
    intros Hshort. unfold seedPair. cbn [ema100].
    apply calculateEMA_short_last. by rewrite length_fmap.
Qed.

Lemma initPairs_entries_witness :
  initPairs Scenario.fetchShort !! "BTCUSDT"%string
  = Some (seedPair "btcusdt.p" Scenario.shortSeed)
  /\ isNaN (ema100 (seedPair "btcusdt.p" Scenario.shortSeed)).
Proof.
  assert (Hin : ("btcusdt.p", "BTCUSDT")%string ∈ SYMBOLS_MAP) by (vm_compute; set_solver).
  destruct (initPairs_entries Scenario.fetchShort _ _ Hin) as [_ H].
  destruct (H Scenario.shortSeed eq_refl) as [Hs Hn].
  split; [exact Hs|]. apply Hn. simpl. lia.
Defined.

(** Three candles are fewer than 100, and BTCUSDT is stored all the same,
    with NaN for both EMAs. *)
Lemma short_seed_is_stored :
  length Scenario.shortSeed < 100
  /\ exists p, initPairs Scenario.fetchShort !! "BTCUSDT"%string = Some p
               /\ ema20 p = VNum nan /\ ema100 p = VNum nan.
Proof.
  split; [simpl; lia|].
  eexists. split; [vm_compute; reflexivity|]. split; reflexivity.
Qed.

End SeedFacts.

(** ** The kline handler *)

Module AppFacts.
Import JS Utils Types App Spec FloatFacts.

(** *** What one message does *)

Lemma alertBlock_emitted (r : Render) (env : Env) (current : PairStatus)
      (close : float) (wasAbove isAbove isTouching : bool) :
  alertBlock r env current close (negb (Bool.eqb wasAbove isAbove)) isAbove isTouching
  = emitted (isDuplicate r env current) (symbol current) close
            (xorb wasAbove isAbove) isAbove isTouching.
Proof.
  unfold alertBlock, emitted, select.
  by destruct wasAbove, isAbove, isTouching, (isDuplicate r env current).
Qed.

Lemma onmessage_known (r : Render) (env : Env) (msg : Message) (st : State)
      (current : PairStatus) :
  e msg = "kline"%string ->
  pairsData st !! s msg = Some current ->
  onmessage r env msg st
  = ({| pairsData := <[s msg := applyTick current msg]> (pairsData st);
        alerts := (perform r env (tickCalls r env current msg) (alerts st)).1 |},
     (perform r env (tickCalls r env current msg) (alerts st)).2).
Proof.
  intros He Hcur. unfold onmessage, updater. rewrite He, Hcur. simpl.
  rewrite alertBlock_emitted.
  unfold tickCalls, detect, crossed, newEma20, newEma100, stepEMA, smoothing,
    calculateSingleEMA.
  by destruct (perform _ _ _ _).
Qed.

Lemma onmessage_unknown (r : Render) (env : Env) (msg : Message) (st : State) :
  pairsData st !! s msg = None -> onmessage r env msg st = (st, []).
Proof.
  intros Hcur. unfold onmessage, updater. rewrite Hcur.
  by destruct (String.eqb _ _).
Qed.

Lemma onmessage_other_event (r : Render) (env : Env) (msg : Message) (st : State) :
  e msg <> "kline"%string -> onmessage r env msg st = (st, []).
Proof.
  intros He. unfold onmessage.
  by destruct (String.eqb_spec (e msg) "kline").
Qed.

Lemma length_emitted (sup : bool) (sym : string) (close : float)
      (c a t : bool) :
  length (emitted sup sym close c a t) <= 1.
Proof. unfold emitted, select. destruct sup, c, t; simpl; lia. Qed.

Lemma perform_single (r : Render) (env : Env) (sym : string) (price : float)
      (ty : AlertType) (log : list AlertEvent) :
  perform r env [ (sym, price, ty) ] log
  = (take 50 (newAlertOf env sym price ty :: log),
     (if r_granted r then [ShowNotification ty (toUpperCase sym) price] else [])
       ++ [PlayAudio]).
Proof. simpl. by rewrite app_nil_r. Qed.

Lemma gt_asym (a b : float) : gt a b = true -> gt b a = false.
Proof. apply ltb_asym. Qed.

(** *** One step of the engine *)

Lemma emitted_cases (sup : bool) (sym : string) (close : float) (c a t : bool) :
  emitted sup sym close c a t = []
  \/ exists ty, emitted sup sym close c a t = [ (sym, close, ty) ].
Proof.
  unfold emitted, select. destruct sup; [by left|].
  destruct c; [right; by eexists|].
  destruct t; [right; by eexists|by left].
Qed.

(** A message leaves the alert log as it is, or puts one new alert of the
    ticked instrument in front and keeps the first 50. *)
Lemma onmessage_alerts (r : Render) (env : Env) (msg : Message) (st : State) :
  alerts (onmessage r env msg st).1 = alerts st
  \/ exists current ty,
       pairsData st !! s msg = Some current
       /\ alerts (onmessage r env msg st).1
          = take 50 (newAlertOf env (symbol current) (k_c msg) ty :: alerts st).
Proof.
  destruct (decide (e msg = "kline"%string)) as [He|He];
    [|rewrite onmessage_other_event by done; by left].
  destruct (pairsData st !! s msg) as [current|] eqn:Hcur;
    [|rewrite onmessage_unknown by done; by left].
  rewrite (onmessage_known r env msg st current He Hcur). cbn [fst alerts].
  unfold tickCalls, detect.
  match goal with
  | |- context [emitted ?a ?b ?c ?d ?f ?g] =>
      destruct (emitted_cases a b c d f g) as [->|[ty ->]]
  end.
  - by left.
  - right. exists current, ty. by rewrite perform_single.
Qed.

(** A message rewrites the entry of the ticked instrument only. *)
Lemma onmessage_pairs (r : Render) (env : Env) (msg : Message) (st : State)
      (sym : string) (p : PairStatus) :
  pairsData (onmessage r env msg st).1 !! sym = Some p ->
  pairsData st !! sym = Some p
  \/ exists current, pairsData st !! sym = Some current /\ p = applyTick current msg.
Proof.
  destruct (decide (e msg = "kline"%string)) as [He|He];
    [|rewrite onmessage_other_event by done; by left].
  destruct (pairsData st !! s msg) as [current|] eqn:Hcur;
    [|rewrite onmessage_unknown by done; by left].
  rewrite (onmessage_known r env msg st current He Hcur). cbn [fst pairsData].
  destruct (decide (sym = s msg)) as [->|Hne].
  - rewrite lookup_insert_eq. intros [= <-]. right. by exists current.
  - rewrite lookup_insert_ne by done. by left.
Qed.

Lemma pushHistory_cases (msg : Message) (h : list KlineData) :
  pushHistory msg h
  = if k_x msg
    then if decide (length h < 200)
         then h ++ [candleOf msg]
         else drop 1 h ++ [candleOf msg]
    else h.
Proof.
  unfold pushHistory. fold (candleOf msg). destruct (k_x msg); [|done].
  rewrite length_app. simpl.
  destruct (Nat.ltb_spec 200 (length h + 1)); case_decide; try lia; [|done].
  destruct h; simpl in *; [lia|done].
Qed.

Lemma pushHistory_length (msg : Message) (h : list KlineData) :
  length h <= 200 -> length (pushHistory msg h) <= 200.
Proof.
  intros H. rewrite pushHistory_cases. destruct (k_x msg); [|done].
  case_decide; rewrite length_app, ?length_drop; simpl; lia.
Qed.

Lemma newest_first_push (a : AlertEvent) (log : list AlertEvent) :
  newest_first log ->
  Forall (fun b => (timestamp b <= timestamp a)%Z) log ->
  newest_first (take 50 (a :: log)).
Proof.
  intros Hs Hle. unfold newest_first.
  apply (StronglySorted_app_1_l _ _ (drop 50 (a :: log))).
  rewrite take_drop. by apply StronglySorted_cons.
Qed.

(** What holds of every state the engine goes through, for seeds of at
    most 200 candles. *)
Lemma reachable_bounds (fetch : string -> Response) (t : Z) (st : State) :
  (forall sym klines, fetch sym = Rows klines -> length klines <= 200) ->
  reachable fetch t st ->
  length (alerts st) <= 50
  /\ newest_first (alerts st)
  /\ Forall (fun a => (timestamp a <= t)%Z) (alerts st)
  /\ (forall sym p, pairsData st !! sym = Some p -> length (history p) <= 200).
Proof.
  intros Hseed Hreach. induction Hreach as [t|t r env msg st Hreach IH Hclock].
  - cbn [alerts pairsData]. split; [simpl; lia|]. split; [constructor|].
    split; [constructor|].
    intros sym p Hp. apply SeedFacts.initPairs_inv in Hp as (raw & klines & _ & Hf & ->).
    cbn [seedPair history]. by apply (Hseed sym).
  - destruct IH as (Hlen & Hsorted & Hold & Hhist).
    assert (Hold' : Forall (fun a => (timestamp a <= now_alert env)%Z) (alerts st)).
    { eapply Forall_impl; [exact Hold|]. simpl. intros a Ha. lia. }
    destruct (onmessage_alerts r env msg st) as [->|(current & ty & _ & ->)].
    + split; [done|]. split; [done|]. split; [done|].
      intros sym p Hp. apply onmessage_pairs in Hp as [Hp|(c & Hc & ->)].
      * by apply (Hhist sym).
      * cbn [applyTick history]. apply pushHistory_length. by apply (Hhist sym).
    + split; [rewrite length_take; lia|].
      split; [by apply newest_first_push|].
      split.
      * apply Forall_take, Forall_cons. split; [simpl; lia|done].
      * intros sym p Hp. apply onmessage_pairs in Hp as [Hp|(c & Hc & ->)].
        -- by apply (Hhist sym).
        -- cbn [applyTick history]. apply pushHistory_length. by apply (Hhist sym).
Qed.

(** *** Symbols in the store and in the log *)

Lemma tracked_upper_differs :
  Forall (fun raw' => Forall (fun raw => toUpperCase raw' <> raw) (SYMBOLS_MAP.*1))
         (SYMBOLS_MAP.*1).
Proof. compute_done. Qed.

(** The stored instruments carry the keys of [SYMBOLS_MAP], and the alerts
    carry their upper-case forms. *)
Lemma reachable_symbols (fetch : string -> Response) (t : Z) (st : State) :
  reachable fetch t st ->
  (forall sym p, pairsData st !! sym = Some p -> symbol p ∈ SYMBOLS_MAP.*1)
  /\ Forall (fun a => exists raw, raw ∈ SYMBOLS_MAP.*1 /\ a_symbol a = toUpperCase raw)
            (alerts st).
Proof.
  intros Hreach. induction Hreach as [t|t r env msg st Hreach [Hsym Hlog] Hclock].
  - split; [|constructor]. cbn [pairsData]. intros sym p Hp.
    apply SeedFacts.initPairs_inv in Hp as (raw & klines & Hin & _ & ->).
    cbn [seedPair symbol]. apply list_elem_of_fmap. by exists (raw, sym).
  - split.
    + intros sym p Hp. apply onmessage_pairs in Hp as [Hp|(c & Hc & ->)].
      * by apply (Hsym sym).
      * cbn [applyTick symbol]. by apply (Hsym sym).
    + destruct (onmessage_alerts r env msg st) as [->|(current & ty & Hcur & ->)];
        [done|].
      apply Forall_take, Forall_cons. split; [|done].
      exists (symbol current). split; [by apply (Hsym (s msg))|done].
Qed.

(** Read against the log itself, the duplicate test is false in every state
    the engine goes through: the log holds the upper-case symbol, which the
    test compares with the stored lower-case one. *)
Lemma reachable_never_duplicate (fetch : string -> Response) (t : Z) (st : State)
      (granted : bool) (env : Env) (sym : string) (current : PairStatus) :
  reachable fetch t st ->
  pairsData st !! sym = Some current ->
  isDuplicate {| r_alerts := alerts st; r_granted := granted |} env current = false.
Proof.
  intros Hreach Hcur. destruct (reachable_symbols fetch t st Hreach) as [Hsym Hlog].
  unfold isDuplicate. cbn [r_alerts].
  destruct (alerts st) as [|lastAlert rest]; [done|]. cbn [lookup list_lookup].
  apply Forall_cons in Hlog as [(raw' & Hraw' & ->) _].
  pose proof (Hsym sym current Hcur) as Hraw.
  pose proof tracked_upper_differs as Htab.
  rewrite Forall_forall in Htab. specialize (Htab raw' Hraw').
  rewrite Forall_forall in Htab. specialize (Htab (symbol current) Hraw).
  apply String.eqb_neq in Htab. by rewrite Htab.
Qed.

(** The handler installed at mount reads an empty log. *)
Lemma firstRender_never_duplicate (granted : bool) (env : Env) (current : PairStatus) :
  isDuplicate (firstRender granted) env current = false.
Proof. reflexivity. Qed.

(** The test itself is the rule of the specification, on the log the
    handler reads. *)
Lemma isDuplicate_suppressed (r : Render) (env : Env) (current : PairStatus) :
  isDuplicate r env current = true
  <-> suppressed (r_alerts r) (symbol current) (now_check env).
Proof.
  unfold isDuplicate, suppressed.
  destruct (r_alerts r) as [|lastAlert rest]; cbn [lookup list_lookup].
  - split; [done|]. by intros (? & ? & ? & _).
  - rewrite andb_true_iff, String.eqb_eq, Z.ltb_lt. split.
    + intros [Hs Ht]. by exists lastAlert, rest.
    + intros (a & l & [= <- <-] & Hs & Ht). done.
Qed.

(** *** Deduplication *)

(** C1, on the running engine. BTCUSDT is seeded with a flat history, so
    that every tick at 100 is a touch.  The first tick records [alert1].
    The same tick one second later meets a log whose head is that alert of
    the same instrument, 1,000 ms old, and is recorded again as [alert2],
    with its sound: both when the handler reads the live log and when it
    reads the log captured at mount. *)
Theorem repeated_signal_recorded_twice :
  pairsData Scenario.st0 !! "BTCUSDT"%string = Some Scenario.btc
  /\ alerts Scenario.st1 = [Scenario.alert1]
  /\ a_symbol Scenario.alert1 = toUpperCase (symbol Scenario.btc)
  /\ (1001000 - timestamp Scenario.alert1 < 300000)%Z
  /\ onmessage {| r_alerts := alerts Scenario.st1; r_granted := false |}
               (Scenario.at_time 1001000 "b") (Scenario.tick 1 100 false)
               Scenario.st1
     = ({| pairsData := pairsData Scenario.st1;
           alerts := [Scenario.alert2; Scenario.alert1] |}, [PlayAudio])
  /\ alerts (run (firstRender false)
                 [ (Scenario.at_time 1000000 "a", Scenario.tick 1 100 false);
                   (Scenario.at_time 1001000 "b", Scenario.tick 1 100 false) ]
                 Scenario.st0).1
     = [Scenario.alert2; Scenario.alert1].
Proof.
  split; [by vm_compute|]. split; [by vm_compute|]. split; [by vm_compute|].
  split; [by vm_compute|]. split; by vm_compute.
Qed.

(** *** Signal selection *)

(** C3. A tick on a known symbol makes at most one call to [triggerAlert].
    When the tick is not suppressed: if the EMAs crossed, the call is a
    [bullish_cross] when [newEma20 > newEma100] and a [bearish_cross]
    otherwise, whether or not the touch condition holds as well; a [touch]
    is emitted only when they did not cross and the touch condition holds;
    otherwise there is no call. *)
Theorem signal_selection (r : Render) (env : Env) (msg : Message) (st : State)
        (current : PairStatus) :
  e msg = "kline"%string ->
  pairsData st !! s msg = Some current ->
  let close := k_c msg in
  let prevEma20 := ToNumber (ema20 current) in
  let prevEma100 := ToNumber (ema100 current) in
  let newEma20 := calculateSingleEMA close prevEma20 20 in
  let newEma100 := calculateSingleEMA close prevEma100 100 in
  let crossed := xorb (gt prevEma20 prevEma100) (gt newEma20 newEma100) in
  exists calls,
    (alerts (onmessage r env msg st).1, (onmessage r env msg st).2)
    = perform r env calls (alerts st)
    /\ length calls <= 1
    /\ (isDuplicate r env current = true -> calls = [])
    /\ (isDuplicate r env current = false ->
        (crossed = true ->
         calls = [ (symbol current, close,
                    if gt newEma20 newEma100 then bullish_cross else bearish_cross) ])
        /\ (crossed = false -> touching newEma20 newEma100 = true ->
            calls = [ (symbol current, close, touch) ])
        /\ (crossed = false -> touching newEma20 newEma100 = false ->
            calls = [])).
Proof.
  intros He Hcur. cbv zeta. exists (tickCalls r env current msg).
  rewrite (onmessage_known r env msg st current He Hcur). cbn [fst snd alerts].
  split; [by rewrite <- surjective_pairing|].
  split; [apply length_emitted|].
  unfold tickCalls, detect, emitted, select, crossed, newEma20, newEma100,
    stepEMA, smoothing, calculateSingleEMA.
  split.
  - by intros ->.
  - intros ->. split; [|split].
    + by intros ->.
    + by intros -> ->.
    + by intros -> ->.
Qed.

(** *** The touch state *)

(** C6. On every tick of a known symbol the stored [isTouching] is
    recomputed from the new EMA pair alone: it is true exactly when
    [|newEma20 - newEma100| <= newEma100 * 0.00015], whatever it was before.
    For 100.01 and 100 the condition holds. *)
Theorem isTouching_recomputed (r : Render) (env : Env) (msg : Message)
        (st : State) (current : PairStatus) :
  e msg = "kline"%string ->
  pairsData st !! s msg = Some current ->
  let newEma20 := calculateSingleEMA (k_c msg) (ToNumber (ema20 current)) 20 in
  let newEma100 := calculateSingleEMA (k_c msg) (ToNumber (ema100 current)) 100 in
  (exists updated,
      pairsData (onmessage r env msg st).1 !! s msg = Some updated
      /\ (isTouching updated = true
          <-> (abs (newEma20 - newEma100) <=? newEma100 * 0.00015)%float = true))
  /\ touching 100.01 100 = true.
Proof.
  intros He Hcur. cbv zeta. split; [|by vm_compute].
  rewrite (onmessage_known r env msg st current He Hcur). cbn [fst pairsData].
  exists (applyTick current msg). split; [by rewrite lookup_insert_eq|].
  reflexivity.
Qed.

(** *** The cross predicate *)

(** C7. An unsuppressed tick on a known symbol raises a cross alert exactly
    when [(prevEma20 > prevEma100) != (newEma20 > newEma100)], with strict
    comparisons, and its direction is that of [newEma20 > newEma100]; equal
    values are not-above; and when one EMA is strictly above the other both
    before and after a crossing tick, exchanging the two EMAs turns a
    [bullish_cross] into a [bearish_cross] and conversely; in the handler,
    reversing both the old and the new relation of a crossing tick reverses
    the alert. *)
Theorem cross_predicate (r : Render) (env : Env) (msg : Message) (st : State)
        (current : PairStatus) :
  e msg = "kline"%string ->
  pairsData st !! s msg = Some current ->
  isDuplicate r env current = false ->
  let close := k_c msg in
  let prevEma20 := ToNumber (ema20 current) in
  let prevEma100 := ToNumber (ema100 current) in
  let newEma20 := calculateSingleEMA close prevEma20 20 in
  let newEma100 := calculateSingleEMA close prevEma100 100 in
  (alerts (onmessage r env msg st).1, (onmessage r env msg st).2)
  = perform r env
      (if xorb (gt prevEma20 prevEma100) (gt newEma20 newEma100)
       then [ (symbol current, close,
               if gt newEma20 newEma100 then bullish_cross else bearish_cross) ]
       else if touching newEma20 newEma100
            then [ (symbol current, close, touch) ]
            else [])
      (alerts st)
  /\ (forall a b : float, (a =? b)%float = true -> gt a b = false)
  /\ (forall p20 p100 n20 n100 : float,
        crossed p20 p100 n20 n100 = true <-> gt p20 p100 <> gt n20 n100)
  /\ (forall (sym : string) (price p20 p100 n20 n100 : float),
        gt p20 p100 = true \/ gt p100 p20 = true ->
        gt n20 n100 = true \/ gt n100 n20 = true ->
        crossed p20 p100 n20 n100 = true ->
        detect false sym price p100 p20 n100 n20
        = flipCall <$> detect false sym price p20 p100 n20 n100
        /\ exists ty, detect false sym price p20 p100 n20 n100 = [ (sym, price, ty) ]
                      /\ ty <> touch)
  /\ (forall (price : float) (wasAbove isAbove isTouching isTouching' : bool),
        wasAbove <> isAbove ->
        alertBlock r env current price
                   (negb (Bool.eqb (negb wasAbove) (negb isAbove))) (negb isAbove)
                   isTouching'
        = flipCall <$> alertBlock r env current price
                                  (negb (Bool.eqb wasAbove isAbove)) isAbove
                                  isTouching).
Proof.
  intros He Hcur Hdup. cbv zeta. split; [|split; [|split; [|split]]]; cycle 4.
  { intros price w a t t' Hflip. unfold alertBlock. rewrite Hdup.
    by destruct w, a, t, t'. }
  - rewrite (onmessage_known r env msg st current He Hcur). cbn [fst snd alerts].
    unfold tickCalls, detect, emitted, select, crossed, newEma20, newEma100,
      stepEMA, smoothing, calculateSingleEMA.
    rewrite Hdup, <- surjective_pairing. f_equal.
    destruct (xorb _ _); [done|]. by destruct (touching _ _).
  - intros a b Hab. unfold gt. by apply eqb_not_ltb.
  - intros p20 p100 n20 n100. unfold crossed.
    destruct (gt p20 p100), (gt n20 n100); simpl; split; congruence.
  - intros sym price p20 p100 n20 n100 Hp Hn. unfold detect, emitted, select, crossed.
    destruct (gt p20 p100) eqn:P, (gt n20 n100) eqn:N; simpl; try discriminate;
      intros _.
    + destruct Hn as [Hn|Hn]; [discriminate|].
      rewrite (gt_asym _ _ P), Hn. simpl. split; [done|]. by eexists.
    + destruct Hp as [Hp|Hp]; [discriminate|].
      rewrite Hp, (gt_asym _ _ N). simpl. split; [done|]. by eexists.
Qed.

(** *** The instrument state is framed off from the alert log *)

(** On the path where the updater returns, the instrument store written
    for a message is determined by the previous store and the message: the
    captured render, the clock, the identifier drawn and the alert log do
    not enter it.  On a tick of a known symbol the entry of that symbol
    becomes [applyTick current msg] and every other entry is left as it
    was. *)
Theorem instrument_state_frame (r1 r2 : Render) (env1 env2 : Env)
        (msg : Message) (pd : gmap string PairStatus)
        (log1 log2 : list AlertEvent) :
  pairsData (onmessage r1 env1 msg (mkState pd log1)).1
  = pairsData (onmessage r2 env2 msg (mkState pd log2)).1
  /\ (forall current,
        e msg = "kline"%string -> pd !! s msg = Some current ->
        pairsData (onmessage r1 env1 msg (mkState pd log1)).1
        = <[s msg := applyTick current msg]> pd)
  /\ (forall sym,
        sym <> s msg ->
        pairsData (onmessage r1 env1 msg (mkState pd log1)).1 !! sym = pd !! sym).
Proof.
  destruct (decide (e msg = "kline"%string)) as [He|He].
  - destruct (pd !! s msg) as [current|] eqn:Hcur.
    + rewrite (onmessage_known r1 env1 msg (mkState pd log1) current He Hcur).
      rewrite (onmessage_known r2 env2 msg (mkState pd log2) current He Hcur).
      cbn [fst pairsData].
      split; [done|]. split.
      * intros c _ [= <-]. done.
      * intros sym Hne. by rewrite lookup_insert_ne.
    + rewrite !onmessage_unknown by done. cbn [fst pairsData].
      split; [done|]. split; [intros c _ [=]|done].
  - rewrite !onmessage_other_event by done. cbn [fst pairsData].
    split; [done|]. split; [intros c Hk; by destruct He|done].
Qed.

(** *** Bounded logs *)

(** C8. In every state the engine goes through (seeds of at most 200
    candles, as with the 150 that are requested), the alert log has at most
    50 entries, newest first, and every history has at most 200 candles.  A
    recorded alert is put in front and the log cut to its first 50 entries.
    A tick writes the close and both EMAs; it leaves the history as it is
    when the candle is still in progress, and when the candle is final it
    appends it, dropping the oldest candle if there were already 200. *)
Theorem bounded_logs (fetch : string -> Response) (t : Z) (st : State) :
  (forall sym klines, fetch sym = Rows klines -> length klines <= 200) ->
  reachable fetch t st ->
  (length (alerts st) <= 50
   /\ newest_first (alerts st)
   /\ (forall sym p, pairsData st !! sym = Some p -> length (history p) <= 200))
  /\ (forall r env sym price ty,
        (triggerAlert r env sym price ty (alerts st)).1
        = take 50 (newAlertOf env sym price ty :: alerts st))
  /\ (forall r env msg current,
        e msg = "kline"%string ->
        pairsData st !! s msg = Some current ->
        exists updated,
          pairsData (onmessage r env msg st).1 !! s msg = Some updated
          /\ price updated = VNum (k_c msg)
          /\ ema20 updated
             = VNum (calculateSingleEMA (k_c msg) (ToNumber (ema20 current)) 20)
          /\ ema100 updated
             = VNum (calculateSingleEMA (k_c msg) (ToNumber (ema100 current)) 100)
          /\ history updated
             = if k_x msg
               then if decide (length (history current) < 200)
                    then history current ++ [candleOf msg]
                    else drop 1 (history current) ++ [candleOf msg]
               else history current).
Proof.
  intros Hseed Hreach.
  destruct (reachable_bounds fetch t st Hseed Hreach) as (Hlen & Hsorted & _ & Hhist).
  split; [done|]. split; [done|].
  intros r env msg current He Hcur.
  rewrite (onmessage_known r env msg st current He Hcur). cbn [fst pairsData].
  exists (applyTick current msg). rewrite lookup_insert_eq.
  split; [done|]. split; [done|]. split; [done|]. split; [done|].
  apply pushHistory_cases.
Qed.

(** *** The theorems at work on the BTCUSDT feed *)

Lemma st0_btc : pairsData Scenario.st0 !! s (Scenario.tick 1 200 true) = Some Scenario.btc.
Proof. vm_compute. reflexivity. Defined.

Lemma fetchBtc_bounded (sym : string) (klines : list KlineData) :
  Scenario.fetchBtc sym = Rows klines -> length klines <= 200.
Proof.
  unfold Scenario.fetchBtc. destruct (String.eqb sym "BTCUSDT"); [|discriminate].
  intros [= <-]. vm_compute. lia.
Defined.

Lemma signal_selection_witness :
  exists calls,
    (alerts (onmessage (firstRender false) (Scenario.at_time 1000000 "a")
                       (Scenario.tick 1 200 true) Scenario.st0).1,
     (onmessage (firstRender false) (Scenario.at_time 1000000 "a")
                (Scenario.tick 1 200 true) Scenario.st0).2)
    = perform (firstRender false) (Scenario.at_time 1000000 "a") calls
              (alerts Scenario.st0)
    /\ calls = [ ("btcusdt.p"%string, 200%float, bullish_cross) ].
Proof.
  destruct (signal_selection (firstRender false) (Scenario.at_time 1000000 "a")
                             (Scenario.tick 1 200 true) Scenario.st0 Scenario.btc
                             eq_refl st0_btc)
    as (calls & Hp & _ & _ & Hsel).
  exists calls. split; [exact Hp|].
  destruct (Hsel eq_refl) as [Hcross _].
  rewrite Hcross by (vm_compute; reflexivity). vm_compute. reflexivity.
Defined.

Lemma isTouching_recomputed_witness :
  exists updated,
    pairsData (onmessage (firstRender false) (Scenario.at_time 1000000 "a")
                         (Scenario.tick 1 200 true) Scenario.st0).1
      !! "BTCUSDT"%string = Some updated
    /\ isTouching updated = false.
Proof.
  destruct (isTouching_recomputed (firstRender false) (Scenario.at_time 1000000 "a")
                                  (Scenario.tick 1 200 true) Scenario.st0
                                  Scenario.btc eq_refl st0_btc)
    as [(updated & Hu & Ht) _].
  exists updated. split; [exact Hu|].
  destruct (isTouching updated); [|reflexivity].
  destruct Ht as [Ht _]. specialize (Ht eq_refl). vm_compute in Ht. discriminate Ht.
Defined.

Lemma cross_predicate_witness :
  crossed 100 101 102 101 = true
  /\ detect false "btcusdt.p" 102 100 101 102 101
     = [ ("btcusdt.p"%string, 102%float, bullish_cross) ]
  /\ detect false "btcusdt.p" 102 101 100 101 102
     = [ ("btcusdt.p"%string, 102%float, bearish_cross) ].
Proof.
  destruct (cross_predicate (firstRender false) (Scenario.at_time 1000000 "a")
                            (Scenario.tick 1 200 true) Scenario.st0 Scenario.btc
                            eq_refl st0_btc eq_refl)
    as (_ & _ & Hiff & Hswap & _).
  assert (Hc : crossed 100 101 102 101 = true).
  { apply Hiff. vm_compute. discriminate. }
  destruct (Hswap "btcusdt.p"%string 102%float 100%float 101%float 102%float 101%float)
    as [Heq _].
  - right. vm_compute. reflexivity.
  - left. vm_compute. reflexivity.
  - exact Hc.
  - split; [exact Hc|]. split; [vm_compute; reflexivity|].
    rewrite Heq. vm_compute. reflexivity.
Defined.

Lemma instrument_state_frame_witness :
  pairsData (onmessage (firstRender false) (Scenario.at_time 1000000 "a")
                       (Scenario.tick 1 200 true) Scenario.st0).1
  = <[ "BTCUSDT"%string := applyTick Scenario.btc (Scenario.tick 1 200 true) ]>
      (pairsData Scenario.st0).
Proof.
  destruct (instrument_state_frame (firstRender false) (firstRender true)
                                   (Scenario.at_time 1000000 "a")
                                   (Scenario.at_time 5 "z")
                                   (Scenario.tick 1 200 true)
                                   (pairsData Scenario.st0) [] [Scenario.alert1])
    as (_ & Hw & _).
  exact (Hw Scenario.btc eq_refl st0_btc).
Defined.

Lemma bounded_logs_witness :
  length (alerts Scenario.st1) <= 50
  /\ (forall sym p, pairsData Scenario.st1 !! sym = Some p -> length (history p) <= 200).
Proof.
  destruct (bounded_logs Scenario.fetchBtc 1000000 Scenario.st1 fetchBtc_bounded)
    as ((Hlen & _ & Hhist) & _).
  - apply (reach_message Scenario.fetchBtc 0 (firstRender false)
                         (Scenario.at_time 1000000 "a")
                         (Scenario.tick 1 100 false)).
    + apply reach_init.
    + simpl. lia.
  - split; [exact Hlen | exact Hhist].
Defined.

End AppFacts.

(** ** More facts about binary64 numbers *)

Module NaNFacts.
Import FloatFacts.

Lemma is_nan_sub_l (x y : float) : is_nan x = true -> is_nan (x - y) = true.
Proof. rewrite !is_nan_spec, FloatAxioms.sub_spec. intros ->. reflexivity. Qed.

Lemma is_nan_sub_r (x y : float) : is_nan y = true -> is_nan (x - y) = true.
Proof.
  rewrite !is_nan_spec, FloatAxioms.sub_spec. intros ->.
  destruct (Prim2SF x) as [[]|[]| |]; reflexivity.
Qed.

Lemma is_nan_mul_l (x y : float) : is_nan x = true -> is_nan (x * y) = true.
Proof. rewrite !is_nan_spec, FloatAxioms.mul_spec. intros ->. reflexivity. Qed.

Lemma is_nan_abs (x : float) : is_nan x = true -> is_nan (abs x) = true.
Proof. rewrite !is_nan_spec, FloatAxioms.abs_spec. intros ->. reflexivity. Qed.

Lemma SFcompare_nan_r (x : spec_float) : SFcompare x S754_nan = None.
Proof. by destruct x. Qed.

Lemma ltb_nan_l (x y : float) : is_nan x = true -> (x <? y)%float = false.
Proof. rewrite is_nan_spec, FloatAxioms.ltb_spec. unfold SFltb. by intros ->. Qed.

Lemma ltb_nan_r (x y : float) : is_nan y = true -> (x <? y)%float = false.
Proof.
  rewrite is_nan_spec, FloatAxioms.ltb_spec. unfold SFltb. intros ->.
  by rewrite SFcompare_nan_r.
Qed.

Lemma leb_nan_l (x y : float) : is_nan x = true -> (x <=? y)%float = false.
Proof. rewrite is_nan_spec, FloatAxioms.leb_spec. unfold SFleb. by intros ->. Qed.

(** A number that is neither NaN nor infinite is a zero or a finite
    non-zero number. *)
Lemma finite_cases (x : float) :
  is_finite x = true ->
  (exists sg, Prim2SF x = S754_zero sg)
  \/ (exists sg m ex, Prim2SF x = S754_finite sg m ex).
Proof.
  unfold is_finite, is_infinity. rewrite negb_true_iff, orb_false_iff.
  intros [Hn Hi].
  rewrite FloatAxioms.eqb_spec, FloatAxioms.abs_spec in Hi.
  destruct (Prim2SF x) as [sg|sg| |sg m ex] eqn:E.
  - left. by eexists.
  - vm_compute in Hi. destruct sg; discriminate Hi.
  - apply is_nan_spec in E. congruence.
  - right. by do 3 eexists.
Qed.

Lemma sub_self (x : float) : is_finite x = true -> Prim2SF (x - x) = S754_zero false.
Proof.
  intros Hf. rewrite FloatAxioms.sub_spec.
  destruct (finite_cases x Hf) as [[sg ->]|(sg & m & ex & ->)].
  - by destruct sg.
  - unfold SF64sub, SFsub.
    change (IntDef.Z.min ex ex) with (Z.min ex ex). rewrite Z.min_id.
    match goal with
    | |- context [IntDef.Z.sub ?a ?a] =>
        replace (IntDef.Z.sub a a) with 0%Z by (symmetry; apply (Z.sub_diag a))
    end.
    reflexivity.
Qed.

Lemma eqb_refl_finite (x : float) : is_finite x = true -> (x =? x)%float = true.
Proof.
  unfold is_finite. rewrite negb_true_iff, orb_false_iff. intros [Hn _].
  unfold is_nan in Hn. by apply negb_false_iff in Hn.
Qed.

End NaNFacts.

(** ** More about [calculateEMA] and [calculateSingleEMA] *)

Module UtilsMore.
Import JS Utils Spec FloatFacts NaNFacts UtilsFacts Stream.

(** *** Lengths *)

Lemma length_set_end (a : array) (v : float) : length (set a (length a) v) = S (length a).
Proof. rewrite set_end, length_app. simpl. lia. Qed.

Lemma ema_loop_length (data : array) (k : float) (n i : nat) (prev : float)
      (ema : array) :
  length ema = i -> length (ema_loop data k n i prev ema) = i + n.
Proof.
  revert i prev ema. induction n as [|n IH]; intros i prev ema Hi; simpl; [lia|].
  rewrite (IH (S i)); [lia|]. rewrite <- Hi. apply length_set_end.
Qed.


(** *** Appending closes *)

Lemma stepAll_snoc (period : nat) (e : float) (l : list float) (c : float) :
  stepAll period e (l ++ [c]) = calculateSingleEMA c (stepAll period e l) period.
Proof. unfold stepAll. by rewrite foldl_snoc. Qed.

Lemma recurrence_app (period : nat) (prev : float) (l m : list float) :
  recurrence (smoothing period) prev (l ++ m)
  = recurrence (smoothing period) prev l
    ++ recurrence (smoothing period) (stepAll period prev l) m.
Proof.
  revert prev. induction l as [|c l IH]; intros prev; simpl; [done|].
  by rewrite IH.
Qed.

Lemma last_snoc (a : array) (v : float) : last (a ++ [Some v]) = VNum v.
Proof.
  unfold last. rewrite length_app. simpl.
  replace (length a + 1) with (S (length a)) by lia.
  unfold get. by rewrite list_lookup_middle.
Qed.

Lemma last_closed (period p : nat) (seed : float) (l : list float) :
  last (replicate p None ++ Some seed :: (Some <$> recurrence (smoothing period) seed l))
  = VNum (stepAll period seed l).
Proof.
  induction l as [|c l _] using rev_ind.
  - simpl. apply last_snoc.
  - rewrite recurrence_app, fmap_app, stepAll_snoc. simpl.
    rewrite app_comm_cons, app_assoc. apply last_snoc.
Qed.

Lemma calculateEMA_last (data : list float) (p : nat) :
  S p <= length data ->
  last (calculateEMA data (S p))
  = VNum (stepAll (S p) (mean (take (S p) data)) (drop (S p) data)).
Proof. intros Hlen. rewrite calculateEMA_closed by done. apply last_closed. Qed.

Lemma calculateEMA_app (data more : list float) (p : nat) :
  S p <= length data ->
  calculateEMA (data ++ more) (S p)
  = calculateEMA data (S p)
    ++ (Some <$> recurrence (smoothing (S p))
                            (stepAll (S p) (mean (take (S p) data)) (drop (S p) data))
                            more).
Proof.
  intros Hlen.
  rewrite calculateEMA_closed by (rewrite length_app; lia).
  rewrite calculateEMA_closed by done.
  rewrite take_app_le, drop_app_le by lia.
  rewrite recurrence_app, fmap_app.
  by rewrite <- app_assoc.
Qed.

Lemma calculateEMA_last_snoc (data : list float) (c : float) (p : nat) :
  S p <= length data ->
  exists e, last (calculateEMA data (S p)) = VNum e
            /\ last (calculateEMA (data ++ [c]) (S p))
               = VNum (calculateSingleEMA c e (S p)).
Proof.
  intros Hlen. eexists. split; [by apply calculateEMA_last|].
  rewrite calculateEMA_last by (rewrite length_app; lia).
  rewrite take_app_le, drop_app_le by lia. by rewrite stepAll_snoc.
Qed.

(** X2. Batch and incremental computation agree: with at least [period]
    closes, the last entry of [calculateEMA] on the closes extended by one
    more close is [calculateSingleEMA] of that close and the last entry on
    the closes as they were. *)
Theorem calculateEMA_snoc (data : list float) (c : float) (period : nat) :
  0 < period -> period <= length data ->
  exists e, last (calculateEMA data period) = VNum e
            /\ last (calculateEMA (data ++ [c]) period)
               = VNum (calculateSingleEMA c e period).
Proof.
  intros Hpos Hlen. destruct period as [|p]; [lia|].
  by apply calculateEMA_last_snoc.
Qed.

(** X3. With at least [period] closes, closes appended to the input do
    not change the entries already computed: the result on the longer input
    starts with the result on the shorter one. *)
Theorem calculateEMA_prefix (data more : list float) (period : nat) :
  0 < period -> period <= length data ->
  take (length data) (calculateEMA (data ++ more) period) = calculateEMA data period
  /\ forall i, i < length data ->
       get (calculateEMA (data ++ more) period) i = get (calculateEMA data period) i.
Proof.
  intros Hpos Hlen. destruct period as [|p]; [lia|].
  rewrite calculateEMA_app by done.
  assert (Hl : length (calculateEMA data (S p)) = length data).
  { rewrite calculateEMA_closed by done.
    rewrite length_app, length_replicate. simpl.
    rewrite length_fmap, length_recurrence, length_drop. lia. }
  split.
  - rewrite <- Hl at 1. apply take_app_length.
  - intros i Hi. unfold get. rewrite lookup_app_l by lia. done.
Qed.

Lemma calculateSingleEMA_nan_prev (c prev : float) (period : nat) :
  is_nan prev = true -> is_nan (calculateSingleEMA c prev period) = true.
Proof. intros H. unfold calculateSingleEMA. by apply is_nan_add_r. Qed.

Lemma calculateSingleEMA_nan_close (c prev : float) (period : nat) :
  is_nan c = true -> is_nan (calculateSingleEMA c prev period) = true.
Proof.
  intros H. unfold calculateSingleEMA.
  by apply is_nan_add_l, is_nan_mul_l, is_nan_sub_l.
Qed.

Lemma recurrence_nan_prev (k prev : float) (l : list float) :
  is_nan prev = true -> Forall (fun e => is_nan e = true) (recurrence k prev l).
Proof.
  revert prev. induction l as [|c l IH]; intros prev H; simpl; constructor.
  - by apply is_nan_add_r.
  - apply IH. by apply is_nan_add_r.
Qed.

Lemma recurrence_nan_close (k prev : float) (l : list float) (j : nat) (c : float) :
  l !! j = Some c -> is_nan c = true ->
  Forall (fun e => is_nan e = true) (drop j (recurrence k prev l)).
Proof.
  revert prev j. induction l as [|c0 l IH]; intros prev j Hj Hc; [done|].
  destruct j as [|j]; simpl in *.
  - injection Hj as ->.
    assert (Hcur : is_nan ((c - prev) * k + prev)%float = true)
      by by apply is_nan_add_l, is_nan_mul_l, is_nan_sub_l.
    constructor; [done|]. by apply recurrence_nan_prev.
  - by apply IH.
Qed.

Lemma fold_left_add_nan_acc (l : list float) (acc : float) :
  is_nan acc = true -> is_nan (fold_left PrimFloat.add l acc) = true.
Proof.
  revert acc. induction l as [|x l IH]; intros acc H; simpl; [done|].
  apply IH. by apply is_nan_add_l.
Qed.

Lemma fold_left_add_nan (l : list float) (acc : float) (j : nat) (c : float) :
  l !! j = Some c -> is_nan c = true ->
  is_nan (fold_left PrimFloat.add l acc) = true.
Proof.
  revert acc j. induction l as [|x l IH]; intros acc j Hj Hc; [done|].
  destruct j as [|j]; simpl in *.
  - injection Hj as ->. apply fold_left_add_nan_acc. by apply is_nan_add_r.
  - by apply (IH _ j).
Qed.

(** Reading the closed form of the result. *)
Lemma get_closed (p : nat) (seed : float) (tl : list float) (m : nat) (e : float) :
  (seed :: tl) !! m = Some e ->
  get (replicate p None ++ Some seed :: (Some <$> tl)) (p + m) = VNum e.
Proof.
  intros H. rewrite get_after_holes. unfold get.
  change (Some seed :: (Some <$> tl)) with (Some <$> (seed :: tl)).
  by rewrite list_lookup_fmap, H.
Qed.

(** X4. A close that is NaN spoils the rest of the series: with at least
    [period] closes, every entry from the seed on whose index is at or after
    that of the NaN close is NaN. *)
Theorem calculateEMA_nan_close (data : list float) (period j : nat) (c : float) :
  0 < period -> period <= length data ->
  data !! j = Some c -> is_nan c = true ->
  forall i, j <= i -> period - 1 <= i -> i < length data ->
            isNaN (get (calculateEMA data period) i).
Proof.
  intros Hpos Hlen Hj Hc i Hji Hpi Hi. destruct period as [|p]; [lia|].
  rewrite calculateEMA_closed by done.
  set (seed := mean (take (S p) data)).
  set (tl := recurrence (smoothing (S p)) seed (drop (S p) data)).
  assert (Htl : length tl = length data - S p).
  { unfold tl. by rewrite length_recurrence, length_drop. }
  assert (Hall : forall m e, (seed :: tl) !! m = Some e -> i = p + m -> is_nan e = true).
  { intros m e Hm ->. destruct (decide (j <= p)) as [Hjp|Hjp].
    - assert (Hseed : is_nan seed = true).
      { unfold seed, mean. apply is_nan_div_l.
        apply (fold_left_add_nan _ _ j c); [|done].
        rewrite lookup_take_lt by lia. done. }
      destruct m as [|m]; simpl in Hm.
      + by injection Hm as <-.
      + pose proof (recurrence_nan_prev (smoothing (S p)) seed (drop (S p) data) Hseed) as HF.
        rewrite Forall_lookup in HF. by apply (HF m).
    - destruct m as [|m]; [lia|]. simpl in Hm.
      assert (Hd : drop (S p) data !! (j - S p) = Some c).
      { rewrite lookup_drop. by replace (S p + (j - S p)) with j by lia. }
      pose proof (recurrence_nan_close (smoothing (S p)) seed _ _ _ Hd Hc) as HF.
      rewrite Forall_lookup in HF. apply (HF (m - (j - S p))).
      rewrite lookup_drop. fold tl. by replace (j - S p + (m - (j - S p))) with m by lia. }
  destruct (lookup_lt_is_Some_2 (seed :: tl) (i - p)) as [e He].
  { simpl. lia. }
  replace i with (p + (i - p)) by lia.
  rewrite (get_closed _ _ _ _ _ He). exists e. split; [done|].
  apply (Hall (i - p)); [done|lia].
Qed.

(** X5. With period 0 the result is as long as the input and every entry
    is NaN: the seed is 0/0, and the write at index [-1] adds no element. *)
Theorem calculateEMA_period_zero (data : list float) (i : nat) :
  i < length data ->
  length (calculateEMA data 0) = length data
  /\ isNaN (get (calculateEMA data 0) i).
Proof.
  intros Hi. split.
  { unfold calculateEMA. rewrite ema_loop_length by done.
    unfold dense. rewrite length_fmap. lia. }
  unfold calculateEMA. cbn [sum_loop].
  set (k := (2 / (of_nat 0 + 1))%float).
  set (prev := (0 / of_nat 0)%float).
  assert (Hd : length (dense data) = length data) by apply length_fmap.
  rewrite Hd, Nat.sub_0_r, ema_loop_dense by (simpl; lia).
  rewrite drop_0, firstn_all, app_nil_l.
  assert (Hnan : is_nan prev = true) by (vm_compute; reflexivity).
  pose proof (recurrence_nan_prev k prev data Hnan) as HF.
  rewrite Forall_lookup in HF.
  destruct (lookup_lt_is_Some_2 (recurrence k prev data) i)
    as [e He]; [by rewrite length_recurrence|].
  exists e. split; [|by apply (HF i)].
  unfold get. by rewrite list_lookup_fmap, He.
Qed.

(** X6. A price equal to the previous EMA leaves it where it is: for a
    finite [x] and a finite smoothing factor, [calculateSingleEMA x x period]
    compares equal to [x], and is [x] itself unless [x] is a zero. *)
Theorem calculateSingleEMA_fixed_point (x : float) (period : nat) :
  is_finite x = true ->
  is_finite (2 / (of_nat period + 1))%float = true ->
  (calculateSingleEMA x x period =? x)%float = true
  /\ ((x =? 0)%float = false -> calculateSingleEMA x x period = x).
Proof.
  intros Hx Hk. unfold calculateSingleEMA.
  set (k := (2 / (of_nat period + 1))%float) in *.
  assert (Hz : exists sg, Prim2SF ((x - x) * k) = S754_zero sg).
  { rewrite FloatAxioms.mul_spec, (sub_self x Hx).
    destruct (finite_cases k Hk) as [[sg ->]|(sg & m & ex & ->)]; by eexists. }
  destruct Hz as [sz Hz].
  destruct (finite_cases x Hx) as [[sg Hsg]|(sg & m & ex & Hfin)].
  - split.
    + rewrite FloatAxioms.eqb_spec, FloatAxioms.add_spec, Hz, Hsg.
      by destruct sz, sg.
    + rewrite FloatAxioms.eqb_spec, Hsg. by destruct sg.
  - assert (Heq : ((x - x) * k + x)%float = x).
    { apply Prim2SF_inj. by rewrite FloatAxioms.add_spec, Hz, Hfin. }
    split; [|done]. rewrite Heq. by apply eqb_refl_finite.
Qed.

(** *** The theorems at work on short series *)

Lemma calculateSingleEMA_fixed_point_witness :
  calculateSingleEMA 100 100 20 = 100%float
  /\ calculateSingleEMA 100 100 100 = 100%float.
Proof.
  split.
  - apply (calculateSingleEMA_fixed_point 100 20); vm_compute; reflexivity.
  - apply (calculateSingleEMA_fixed_point 100 100); vm_compute; reflexivity.
Defined.

Lemma calculateEMA_snoc_witness :
  exists e, last (calculateEMA [4; 6; 5]%float 2) = VNum e
            /\ last (calculateEMA [4; 6; 5; 7]%float 2)
               = VNum (calculateSingleEMA 7 e 2).
Proof. apply (calculateEMA_snoc [4; 6; 5]%float 7 2); simpl; lia. Defined.

Lemma calculateEMA_prefix_witness :
  take 3 (calculateEMA [4; 6; 5; 7; 8]%float 2) = calculateEMA [4; 6; 5]%float 2
  /\ get (calculateEMA [4; 6; 5; 7; 8]%float 2) 2
     = get (calculateEMA [4; 6; 5]%float 2) 2.
Proof.
  destruct (calculateEMA_prefix [4; 6; 5]%float [7; 8]%float 2) as [Ht Hg];
    [simpl; lia | simpl; lia |].
  split; [exact Ht | apply Hg; simpl; lia].
Defined.

Lemma calculateEMA_period_zero_witness :
  length (calculateEMA [1; 2; 3]%float 0) = 3
  /\ isNaN (get (calculateEMA [1; 2; 3]%float 0) 1).
Proof. apply (calculateEMA_period_zero [1; 2; 3]%float 1). simpl; lia. Defined.

Lemma calculateEMA_nan_close_witness :
  isNaN (get (calculateEMA [1; nan; 3; 4]%float 2) 3).
Proof.
  apply (calculateEMA_nan_close [1; nan; 3; 4]%float 2 1 nan);
    [simpl; lia | simpl; lia | reflexivity | reflexivity | lia | simpl; lia | simpl; lia].
Defined.

End UtilsMore.

(** ** More about seeding *)

Module SeedMore.
Import JS Utils Types App Spec FloatFacts NaNFacts UtilsFacts Stream UtilsMore SeedFacts.

Lemma calculateEMA_last_num (data : list float) (p : nat) :
  exists f, last (calculateEMA data (S p)) = VNum f.
Proof.
  destruct (decide (S p <= length data)) as [Hlen|Hlen].
  - eexists. by apply calculateEMA_last.
  - destruct (calculateEMA_short_last data p) as (f & Hf & _); [lia|]. by exists f.
Qed.

Lemma last_dense_nil : last (dense []) = VUndefined.
Proof. reflexivity. Qed.

Lemma last_dense_snoc (l : list float) (c : float) : last (dense (l ++ [c])) = VNum c.
Proof. unfold dense. rewrite fmap_app. apply last_snoc. Qed.

(** X7. Every entry of the seeded store sits under a ticker of
    [SYMBOLS_MAP] whose response was an array; it carries the key of that
    ticker as its symbol and the candles as they came as its history, it is
    not touching, [lastTouch] is null, and both EMAs are numbers, never null
    or undefined.  Its price is the last close, or undefined when the array
    was empty. *)
Theorem initPairs_shape (fetch : string -> Response) (sym : string) (p : PairStatus) :
  initPairs fetch !! sym = Some p ->
  exists klines,
    (symbol p, sym) ∈ SYMBOLS_MAP
    /\ fetch sym = Rows klines
    /\ history p = klines
    /\ isTouching p = false
    /\ lastTouch p = None
    /\ (exists f20 f100, ema20 p = VNum f20 /\ ema100 p = VNum f100)
    /\ (klines = [] -> price p = VUndefined)
    /\ (forall ks k, klines = ks ++ [k] -> price p = VNum (close k)).
Proof.
  intros Hp. apply initPairs_inv in Hp as (raw & klines & Hin & Hf & ->).
  exists klines. cbn [seedPair symbol history isTouching lastTouch ema20 ema100 price].
  split; [done|]. split; [done|]. split; [done|]. split; [done|]. split; [done|].
  split; [|split].
  - destruct (calculateEMA_last_num (close <$> klines) 19) as [f20 H20].
    destruct (calculateEMA_last_num (close <$> klines) 99) as [f100 H100].
    by exists f20, f100.
  - by intros ->.
  - intros ks k ->. rewrite fmap_app. apply last_dense_snoc.
Qed.

Lemma initPairs_shape_witness :
  exists klines,
    (symbol Scenario.btc, "BTCUSDT"%string) ∈ SYMBOLS_MAP
    /\ Scenario.fetchBtc "BTCUSDT" = Rows klines
    /\ history Scenario.btc = klines.
Proof.
  destruct (initPairs_shape Scenario.fetchBtc "BTCUSDT" Scenario.btc)
    as (klines & H1 & H2 & H3 & _).
  - vm_compute. reflexivity.
  - exists klines. split; [exact H1|]. split; [exact H2 | exact H3].
Defined.

End SeedMore.

(** ** More about the kline handler *)

Module AppMore.
Import JS Utils Types App Spec FloatFacts NaNFacts UtilsFacts Stream UtilsMore.
Import SeedFacts SeedMore AppFacts Calls Card.

(** *** The calls of a message *)

Lemma callsOf_known (r : Render) (env : Env) (msg : Message) (st : State)
      (current : PairStatus) :
  e msg = "kline"%string ->
  pairsData st !! s msg = Some current ->
  callsOf r env msg st = tickCalls r env current msg.
Proof.
  intros He Hcur. unfold callsOf. rewrite He, Hcur. simpl.
  by rewrite alertBlock_emitted.
Qed.

Lemma callsOf_unknown (r : Render) (env : Env) (msg : Message) (st : State) :
  pairsData st !! s msg = None -> callsOf r env msg st = [].
Proof. intros H. unfold callsOf. rewrite H. by destruct (String.eqb _ _). Qed.

Lemma callsOf_other_event (r : Render) (env : Env) (msg : Message) (st : State) :
  e msg <> "kline"%string -> callsOf r env msg st = [].
Proof.
  intros He. unfold callsOf. by destruct (String.eqb_spec (e msg) "kline").
Qed.

Lemma onmessage_calls (r : Render) (env : Env) (msg : Message) (st : State) :
  (alerts (onmessage r env msg st).1, (onmessage r env msg st).2)
  = perform r env (callsOf r env msg st) (alerts st).
Proof.
  destruct (decide (e msg = "kline"%string)) as [He|He];
    [|by rewrite onmessage_other_event, callsOf_other_event].
  destruct (pairsData st !! s msg) as [current|] eqn:Hcur;
    [|by rewrite onmessage_unknown, callsOf_unknown].
  rewrite (onmessage_known r env msg st current He Hcur),
    (callsOf_known r env msg st current He Hcur).
  cbn [fst snd alerts]. by rewrite <- surjective_pairing.
Qed.

(** *** The set of instruments *)

Lemma onmessage_dom (r : Render) (env : Env) (msg : Message) (st : State) :
  dom (pairsData (onmessage r env msg st).1) = dom (pairsData st).
Proof.
  destruct (decide (e msg = "kline"%string)) as [He|He];
    [|by rewrite onmessage_other_event].
  destruct (pairsData st !! s msg) as [current|] eqn:Hcur;
    [|by rewrite onmessage_unknown].
  rewrite (onmessage_known r env msg st current He Hcur). cbn [fst pairsData].
  apply dom_insert_lookup_L. by eexists.
Qed.

Lemma onmessage_other (r : Render) (env : Env) (msg : Message) (st : State)
      (sym : string) :
  s msg <> sym ->
  pairsData (onmessage r env msg st).1 !! sym = pairsData st !! sym.
Proof.
  intros Hne.
  destruct (decide (e msg = "kline"%string)) as [He|He];
    [|by rewrite onmessage_other_event].
  destruct (pairsData st !! s msg) as [current|] eqn:Hcur;
    [|by rewrite onmessage_unknown].
  rewrite (onmessage_known r env msg st current He Hcur). cbn [fst pairsData].
  by rewrite lookup_insert_ne.
Qed.

Lemma run_cons (r : Render) (env : Env) (msg : Message)
      (feed : list (Env * Message)) (st : State) :
  (run r ((env, msg) :: feed) st).1 = (run r feed (onmessage r env msg st).1).1.
Proof.
  cbn [run]. destruct (onmessage r env msg st) as [st1 fx1]. cbn [fst].
  by destruct (run r feed st1).
Qed.

Lemma run_other (r : Render) (feed : list (Env * Message)) (st : State)
      (sym : string) :
  Forall (fun em => s em.2 <> sym) feed ->
  pairsData (run r feed st).1 !! sym = pairsData st !! sym.
Proof.
  revert st. induction feed as [|[env msg] feed IH]; intros st Hall; [done|].
  apply Forall_cons in Hall as [Hne Hall]. rewrite run_cons, IH by done.
  by apply onmessage_other.
Qed.

(** X9. Messages never add or remove an instrument: after any feed the
    store has the keys it had, and an instrument that no message of the feed
    names is exactly as it was. *)
Theorem run_dom (r : Render) (feed : list (Env * Message)) (st : State) :
  dom (pairsData (run r feed st).1) = dom (pairsData st)
  /\ (forall sym, Forall (fun em => s em.2 <> sym) feed ->
                  pairsData (run r feed st).1 !! sym = pairsData st !! sym).
Proof.
  split; [|intros sym; apply run_other].
  revert st. induction feed as [|[env msg] feed IH]; intros st; [done|].
  rewrite run_cons, IH. apply onmessage_dom.
Qed.

(** *** Shape of the reachable states *)

Lemma upper_ascii_idemp (c : ascii) : upper_ascii (upper_ascii c) = upper_ascii c.
Proof. destruct c as [[] [] [] [] [] [] [] []]; reflexivity. Qed.

Lemma toUpperCase_idemp (str : string) : toUpperCase (toUpperCase str) = toUpperCase str.
Proof.
  induction str as [|c str IH]; simpl; [done|].
  by rewrite upper_ascii_idemp, IH.
Qed.

(** X10. In every state the engine goes through, each stored instrument
    sits under its own ticker of [SYMBOLS_MAP], its response was an array,
    its [lastTouch] is still null and both its EMAs are numbers; each alert
    of the log is no later than the clock, and its symbol is the upper-case
    form of a key of [SYMBOLS_MAP], which upper-casing again leaves as it
    is. *)
Theorem reachable_shape (fetch : string -> Response) (t : Z) (st : State) :
  reachable fetch t st ->
  (forall sym p,
      pairsData st !! sym = Some p ->
      (symbol p, sym) ∈ SYMBOLS_MAP
      /\ lastTouch p = None
      /\ (exists f20 f100, ema20 p = VNum f20 /\ ema100 p = VNum f100)
      /\ exists klines, fetch sym = Rows klines)
  /\ Forall (fun a => (timestamp a <= t)%Z
                      /\ toUpperCase (a_symbol a) = a_symbol a
                      /\ exists raw sym, (raw, sym) ∈ SYMBOLS_MAP
                                         /\ a_symbol a = toUpperCase raw)
            (alerts st).
Proof.
  intros Hreach. induction Hreach as [t|t r env msg st Hreach [Hst Hlog] Hclock].
  - split; [|constructor]. cbn [pairsData]. intros sym p Hp.
    apply initPairs_inv in Hp as (raw & klines & Hin & Hf & ->).
    cbn [seedPair symbol lastTouch ema20 ema100].
    split; [done|]. split; [done|]. split; [|by exists klines].
    destruct (calculateEMA_last_num (close <$> klines) 19) as [f20 H20].
    destruct (calculateEMA_last_num (close <$> klines) 99) as [f100 H100].
    by exists f20, f100.
  - split.
    + intros sym p Hp. apply onmessage_pairs in Hp as [Hp|(c & Hc & ->)].
      * by apply Hst.
      * destruct (Hst sym c Hc) as (Hin & Hl & _ & Hf).
        cbn [applyTick symbol lastTouch ema20 ema100].
        split; [done|]. split; [done|]. split; [by do 2 eexists|done].
    + assert (Hold : Forall (fun a => (timestamp a <= now_alert env)%Z
                      /\ toUpperCase (a_symbol a) = a_symbol a
                      /\ exists raw sym, (raw, sym) ∈ SYMBOLS_MAP
                                         /\ a_symbol a = toUpperCase raw)
                             (alerts st)).
      { eapply Forall_impl; [exact Hlog|]. simpl. intros a (Ht & Hu & Hr).
        split; [lia|done]. }
      destruct (onmessage_alerts r env msg st) as [->|(current & ty & Hcur & ->)];
        [done|].
      apply Forall_take, Forall_cons. split; [|done].
      cbn [newAlertOf timestamp a_symbol].
      split; [lia|]. split; [apply toUpperCase_idemp|].
      exists (symbol current), (s msg). split; [|done]. by apply (Hst _ _ Hcur).
Qed.

(** X12. [triggerAlert] puts the new alert in front of the first 49
    entries of the previous log, so that the entry given up is the oldest
    one; the new log has one entry more than the previous one, up to 50,
    also when the previous log was longer than 50; the symbol it stores is
    already upper-case. *)
Theorem triggerAlert_log (r : Render) (env : Env) (sym : string) (price : float)
        (ty : AlertType) (prev : list AlertEvent) :
  (triggerAlert r env sym price ty prev).1
  = newAlertOf env sym price ty :: take 49 prev
  /\ length (triggerAlert r env sym price ty prev).1 = S (length prev) `min` 50
  /\ toUpperCase (a_symbol (newAlertOf env sym price ty))
     = a_symbol (newAlertOf env sym price ty).
Proof.
  unfold triggerAlert. cbn [fst snd].
  split; [reflexivity|]. split; [rewrite length_take; cbn [length]; lia|].
  apply toUpperCase_idemp.
Qed.

(** *** Instruments whose EMA is not a number *)

Lemma touching_nan (a b : float) :
  is_nan a = true \/ is_nan b = true -> touching a b = false.
Proof.
  intros H. unfold touching. apply leb_nan_l, is_nan_abs.
  destruct H; [by apply is_nan_sub_l|by apply is_nan_sub_r].
Qed.

Lemma gt_nan (a b : float) :
  is_nan a = true \/ is_nan b = true -> gt a b = false.
Proof.
  intros H. unfold gt. destruct H; [by apply ltb_nan_r|by apply ltb_nan_l].
Qed.

(** X13. An instrument whose stored EMA20 or EMA100 is NaN (as after a seed
    of fewer than 100 candles) is silent: a tick on it makes no call to
    [triggerAlert], leaves the log alone and has no effect, writes
    [isTouching = false], and leaves the instrument with a NaN EMA again. *)
Theorem nan_instrument_silent (r : Render) (env : Env) (msg : Message)
        (st : State) (current : PairStatus) :
  e msg = "kline"%string ->
  pairsData st !! s msg = Some current ->
  is_nan (ToNumber (ema20 current)) = true
  \/ is_nan (ToNumber (ema100 current)) = true ->
  callsOf r env msg st = []
  /\ alerts (onmessage r env msg st).1 = alerts st
  /\ (onmessage r env msg st).2 = []
  /\ exists updated,
      pairsData (onmessage r env msg st).1 !! s msg = Some updated
      /\ isTouching updated = false
      /\ (is_nan (ToNumber (ema20 updated)) = true
          \/ is_nan (ToNumber (ema100 updated)) = true).
Proof.
  intros He Hcur Hnan.
  assert (Hnew : is_nan (newEma20 current (k_c msg)) = true
                 \/ is_nan (newEma100 current (k_c msg)) = true).
  { destruct Hnan as [H|H]; [left|right]; by apply calculateSingleEMA_nan_prev. }
  assert (Hcalls : callsOf r env msg st = []).
  { rewrite (callsOf_known r env msg st current He Hcur).
    unfold tickCalls, detect, crossed.
    rewrite (gt_nan _ _ Hnan), (gt_nan _ _ Hnew), (touching_nan _ _ Hnew).
    unfold emitted, select. simpl. by destruct (isDuplicate r env current). }
  pose proof (onmessage_calls r env msg st) as Hc. rewrite Hcalls in Hc.
  simpl in Hc. injection Hc as Ha Hf.
  split; [done|]. split; [done|]. split; [done|].
  rewrite (onmessage_known r env msg st current He Hcur). cbn [fst pairsData].
  exists (applyTick current msg). rewrite lookup_insert_eq.
  split; [done|]. cbn [applyTick isTouching ema20 ema100 ToNumber].
  split; [by apply touching_nan|done].
Qed.

(** X14. A tick whose close is NaN turns the price and both EMAs of the
    instrument into NaN and writes [isTouching = false].  It raises no
    touch and no bullish cross; it raises a bearish cross exactly when EMA20
    was above EMA100 and the tick is not suppressed. *)
Theorem nan_close_tick (r : Render) (env : Env) (msg : Message)
        (st : State) (current : PairStatus) :
  e msg = "kline"%string ->
  pairsData st !! s msg = Some current ->
  is_nan (k_c msg) = true ->
  callsOf r env msg st
  = (if gt (ToNumber (ema20 current)) (ToNumber (ema100 current))
        && negb (isDuplicate r env current)
     then [ (symbol current, k_c msg, bearish_cross) ]
     else [])
  /\ exists updated,
      pairsData (onmessage r env msg st).1 !! s msg = Some updated
      /\ isTouching updated = false
      /\ isNaN (price updated) /\ isNaN (ema20 updated) /\ isNaN (ema100 updated).
Proof.
  intros He Hcur Hnan.
  assert (H20 : is_nan (newEma20 current (k_c msg)) = true)
    by by apply calculateSingleEMA_nan_close.
  assert (H100 : is_nan (newEma100 current (k_c msg)) = true)
    by by apply calculateSingleEMA_nan_close.
  split.
  - rewrite (callsOf_known r env msg st current He Hcur).
    unfold tickCalls, detect, crossed.
    rewrite (gt_nan (newEma20 _ _) (newEma100 _ _)) by by left.
    rewrite (touching_nan (newEma20 _ _) (newEma100 _ _)) by by left.
    unfold emitted, select.
    by destruct (gt _ _), (isDuplicate r env current).
  - rewrite (onmessage_known r env msg st current He Hcur). cbn [fst pairsData].
    exists (applyTick current msg). rewrite lookup_insert_eq.
    split; [done|]. cbn [applyTick isTouching ema20 ema100 price].
    split; [apply touching_nan; by left|].
    split; [|split]; eexists; by split.
Qed.

(** *** Signals in the running engine *)

Lemma signal_recorded (r : Render) (env : Env) (msg : Message) (st : State)
      (current : PairStatus) :
  e msg = "kline"%string ->
  pairsData st !! s msg = Some current ->
  isDuplicate r env current = false ->
  xorb (gt (ToNumber (ema20 current)) (ToNumber (ema100 current)))
       (gt (calculateSingleEMA (k_c msg) (ToNumber (ema20 current)) 20)
           (calculateSingleEMA (k_c msg) (ToNumber (ema100 current)) 100))
  || touching (calculateSingleEMA (k_c msg) (ToNumber (ema20 current)) 20)
              (calculateSingleEMA (k_c msg) (ToNumber (ema100 current)) 100) = true ->
  exists ty,
    callsOf r env msg st = [ (symbol current, k_c msg, ty) ]
    /\ alerts (onmessage r env msg st).1
       = newAlertOf env (symbol current) (k_c msg) ty :: take 49 (alerts st).
Proof.
  intros He Hcur Hdup Hsig.
  assert (Hsig' : crossed (ToNumber (ema20 current)) (ToNumber (ema100 current))
                          (newEma20 current (k_c msg)) (newEma100 current (k_c msg))
                  || touching (newEma20 current (k_c msg)) (newEma100 current (k_c msg))
                  = true) by exact Hsig.
  assert (Hcalls : exists ty, callsOf r env msg st = [ (symbol current, k_c msg, ty) ]).
  { rewrite (callsOf_known r env msg st current He Hcur).
    unfold tickCalls, detect, emitted, select. rewrite Hdup.
    destruct (crossed _ _ _ _); [by eexists|].
    simpl in Hsig'. rewrite Hsig'. by eexists. }
  destruct Hcalls as [ty Hcalls]. exists ty. split; [done|].
  pose proof (onmessage_calls r env msg st) as Hc.
  rewrite Hcalls, perform_single in Hc. by injection Hc.
Qed.

(** X15. In every state the engine goes through, a tick of a stored
    instrument on which the EMAs cross or touch puts a new alert at the head
    of the log, both when the handler reads the log as it is and when it
    reads the log captured at mount: no such tick is held back. *)
Theorem signal_always_recorded (fetch : string -> Response) (t : Z) (st : State)
        (granted : bool) (env : Env) (msg : Message) (current : PairStatus) :
  reachable fetch t st ->
  e msg = "kline"%string ->
  pairsData st !! s msg = Some current ->
  xorb (gt (ToNumber (ema20 current)) (ToNumber (ema100 current)))
       (gt (calculateSingleEMA (k_c msg) (ToNumber (ema20 current)) 20)
           (calculateSingleEMA (k_c msg) (ToNumber (ema100 current)) 100))
  || touching (calculateSingleEMA (k_c msg) (ToNumber (ema20 current)) 20)
              (calculateSingleEMA (k_c msg) (ToNumber (ema100 current)) 100) = true ->
  (exists ty,
      alerts (onmessage {| r_alerts := alerts st; r_granted := granted |} env msg st).1
      = newAlertOf env (symbol current) (k_c msg) ty :: take 49 (alerts st))
  /\ (exists ty,
      alerts (onmessage (firstRender granted) env msg st).1
      = newAlertOf env (symbol current) (k_c msg) ty :: take 49 (alerts st)).
Proof.
  intros Hreach He Hcur Hsig. split.
  - destruct (signal_recorded {| r_alerts := alerts st; r_granted := granted |}
                              env msg st current He Hcur) as (ty & _ & Ha);
      [by eapply reachable_never_duplicate|done|]. by exists ty.
  - destruct (signal_recorded (firstRender granted) env msg st current He Hcur)
      as (ty & _ & Ha); [done|done|]. by exists ty.
Qed.

(** *** The history window *)

Lemma pushHistory_length_eq (msg : Message) (h : list KlineData) :
  length (pushHistory msg h)
  = if k_x msg && (length h <? 200)%nat then S (length h) else length h.
Proof.
  rewrite pushHistory_cases. destruct (k_x msg); [|done]. simpl.
  destruct (Nat.ltb_spec (length h) 200); case_decide; try lia.
  - rewrite length_app. simpl. lia.
  - rewrite length_app, length_drop. simpl. lia.
Qed.

(** X16. In every state the engine goes through, whatever the size of the
    seeds, the history of an instrument is at least as long as its seed and
    at most as long as the longer of its seed and 200: a seed of more than
    200 candles is never cut back. *)
Theorem history_window (fetch : string -> Response) (t : Z) (st : State)
        (sym : string) (p : PairStatus) :
  reachable fetch t st ->
  pairsData st !! sym = Some p ->
  exists klines,
    fetch sym = Rows klines
    /\ length klines <= length (history p)
    /\ length (history p) <= length klines `max` 200.
Proof.
  intros Hreach. revert sym p.
  induction Hreach as [t|t r env msg st Hreach IH Hclock]; intros sym p Hp.
  - cbn [pairsData] in Hp.
    apply initPairs_inv in Hp as (raw & klines & _ & Hf & ->).
    exists klines. cbn [seedPair history]. split; [done|]. lia.
  - apply onmessage_pairs in Hp as [Hp|(c & Hc & ->)]; [by apply IH|].
    destruct (IH sym c Hc) as (klines & Hf & Hlo & Hhi).
    exists klines. split; [done|]. cbn [applyTick history].
    rewrite pushHistory_length_eq.
    destruct (k_x msg); simpl; [|lia].
    destruct (Nat.ltb_spec (length (history c)) 200); lia.
Qed.

(** *** Successive crosses *)

Lemma emitted_cross_inv (sup : bool) (sym : string) (close : float)
      (c a t : bool) (sym' : string) (p' : float) (ty : AlertType) :
  emitted sup sym close c a t = [ (sym', p', ty) ] ->
  ty <> touch ->
  c = true /\ ty = if a then bullish_cross else bearish_cross.
Proof.
  unfold emitted, select. destruct sup; [done|].
  destruct c; [intros [= _ _ <-]; done|].
  destruct t; [intros [= _ _ <-]; done|done].
Qed.

Lemma callsOf_nonempty (r : Render) (env : Env) (msg : Message) (st : State) :
  callsOf r env msg st <> [] ->
  e msg = "kline"%string /\ exists current, pairsData st !! s msg = Some current.
Proof.
  intros Hne. destruct (decide (e msg = "kline"%string)) as [He|He];
    [|by rewrite callsOf_other_event in Hne].
  split; [done|].
  destruct (pairsData st !! s msg) as [current|] eqn:Hcur; [by eexists|].
  by rewrite callsOf_unknown in Hne.
Qed.

(** X17. Crosses of one instrument alternate: if a tick raises a cross,
    and the next tick of that instrument, with ticks of other instruments
    in between, raises a cross too, the second is of the opposite
    direction. *)
Theorem cross_alternates (r1 rm r2 : Render) (env1 env2 : Env) (m1 m2 : Message)
        (mid : list (Env * Message)) (st : State)
        (sym1 sym2 : string) (p1 p2 : float) (ty1 ty2 : AlertType) :
  s m2 = s m1 ->
  Forall (fun em => s em.2 <> s m1) mid ->
  callsOf r1 env1 m1 st = [ (sym1, p1, ty1) ] ->
  ty1 <> touch ->
  callsOf r2 env2 m2 (run rm mid (onmessage r1 env1 m1 st).1).1 = [ (sym2, p2, ty2) ] ->
  ty2 <> touch ->
  ty2 = flip ty1.
Proof.
  intros Hs Hmid Hc1 Ht1 Hc2 Ht2.
  destruct (callsOf_nonempty r1 env1 m1 st) as (He1 & current & Hcur);
    [by rewrite Hc1|].
  destruct (callsOf_nonempty r2 env2 m2 (run rm mid (onmessage r1 env1 m1 st).1).1)
    as (He2 & _); [by rewrite Hc2|].
  rewrite (callsOf_known r1 env1 m1 st current He1 Hcur) in Hc1.
  assert (Hcur2 : pairsData (run rm mid (onmessage r1 env1 m1 st).1).1 !! s m2
                  = Some (applyTick current m1)).
  { rewrite Hs, run_other by done.
    rewrite (onmessage_known r1 env1 m1 st current He1 Hcur). cbn [fst pairsData].
    by rewrite lookup_insert_eq. }
  rewrite (callsOf_known r2 env2 m2 _ _ He2 Hcur2) in Hc2.
  unfold tickCalls, detect in Hc1, Hc2.
  apply emitted_cross_inv in Hc1 as [Hx1 ->]; [|done].
  apply emitted_cross_inv in Hc2 as [Hx2 ->]; [|done].
  cbn [applyTick ema20 ema100 ToNumber] in Hx2.
  unfold crossed in Hx1, Hx2.
  destruct (gt (newEma20 current (k_c m1)) (newEma100 current (k_c m1)));
    destruct (gt (newEma20 (applyTick current m1) (k_c m2))
                 (newEma100 (applyTick current m1) (k_c m2)));
    simpl in *; try done; by destruct (gt _ _).
Qed.

(** *** Seeding followed by ticks *)

Lemma initPairs_rows (fetch : string -> Response) (raw sym : string)
      (klines : list KlineData) :
  (raw, sym) ∈ SYMBOLS_MAP -> fetch sym = Rows klines ->
  initPairs fetch !! sym = Some (seedPair raw klines).
Proof.
  intros Hin Hf. unfold initPairs, initPairsOver.
  rewrite (foldl_initStep_in fetch _ ∅ raw sym SYMBOLS_MAP_tickers_distinct Hin).
  by rewrite Hf.
Qed.

Lemma run_ticks_batch (r : Render) (sym : string) (feed : list (Env * Message))
      (st : State) (cur : PairStatus) (data : list float) :
  Forall (fun em => e em.2 = "kline"%string /\ s em.2 = sym) feed ->
  pairsData st !! sym = Some cur ->
  100 <= length data ->
  ema20 cur = last (calculateEMA data 20) ->
  ema100 cur = last (calculateEMA data 100) ->
  exists updated,
    pairsData (run r feed st).1 !! sym = Some updated
    /\ ema20 updated = last (calculateEMA (data ++ ((fun em => k_c em.2) <$> feed)) 20)
    /\ ema100 updated = last (calculateEMA (data ++ ((fun em => k_c em.2) <$> feed)) 100).
Proof.
  revert st cur data. induction feed as [|[env msg] feed IH];
    intros st cur data Hall Hcur Hlen H20 H100.
  - exists cur. simpl. by rewrite app_nil_r.
  - apply Forall_cons in Hall as [[He Hs] Hall]. simpl in He, Hs. subst sym.
    rewrite run_cons.
    destruct (calculateEMA_last_snoc data (k_c msg) 19) as (e20 & Ha20 & Hb20); [lia|].
    destruct (calculateEMA_last_snoc data (k_c msg) 99) as (e100 & Ha100 & Hb100); [lia|].
    destruct (IH (onmessage r env msg st).1 (applyTick cur msg) (data ++ [k_c msg]))
      as (updated & Hu & Hu20 & Hu100).
    + done.
    + rewrite (onmessage_known r env msg st cur He Hcur). cbn [fst pairsData].
      by rewrite lookup_insert_eq.
    + rewrite length_app. simpl. lia.
    + cbn [applyTick ema20]. unfold newEma20. rewrite H20, Ha20, Hb20. done.
    + cbn [applyTick ema100]. unfold newEma100. rewrite H100, Ha100, Hb100. done.
    + exists updated. split; [done|].
      rewrite fmap_cons. cbn [snd].
      by rewrite (cons_middle (k_c msg)), app_assoc.
Qed.

(** X18. Seeding followed by ticks agrees with the batch computation: for
    an instrument seeded with at least 100 candles, after any feed of ticks
    of that instrument the stored EMA20 and EMA100 are the last entries of
    [calculateEMA] on the seed closes followed by the closes of the ticks. *)
Theorem seed_ticks_match_batch (fetch : string -> Response) (raw sym : string)
        (klines : list KlineData) (r : Render) (feed : list (Env * Message)) :
  (raw, sym) ∈ SYMBOLS_MAP ->
  fetch sym = Rows klines ->
  100 <= length klines ->
  Forall (fun em => e em.2 = "kline"%string /\ s em.2 = sym) feed ->
  exists updated,
    pairsData (run r feed {| pairsData := initPairs fetch; alerts := [] |}).1 !! sym
    = Some updated
    /\ ema20 updated
       = last (calculateEMA ((close <$> klines) ++ ((fun em => k_c em.2) <$> feed)) 20)
    /\ ema100 updated
       = last (calculateEMA ((close <$> klines) ++ ((fun em => k_c em.2) <$> feed)) 100).
Proof.
  intros Hin Hf Hlen Hall.
  apply (run_ticks_batch r sym feed _ (seedPair raw klines)); try done.
  - by apply initPairs_rows.
  - by rewrite length_fmap.
Qed.

(** *** The instrument card *)

Lemma zero_sub_self (f : float) : is_finite f = true -> (f - f)%float = 0%float.
Proof. intros H. apply Prim2SF_inj. by rewrite (sub_self f H). Qed.

(** X19. The card of an instrument reads BULLISH only when both EMAs are
    numbers other than zero and NaN.  When an EMA is null, undefined, NaN or
    zero the difference shown is 0 and the card reads BEARISH; it reads
    BEARISH as well when the two EMAs are the same finite number. *)
Theorem card_degenerate (pair : PairStatus) :
  (truthy (ema20 pair) = false \/ truthy (ema100 pair) = false ->
   diff pair = 0%float /\ isBullish pair = false /\ distance pair = 0%float)
  /\ (isBullish pair = true ->
      truthy (ema20 pair) = true /\ truthy (ema100 pair) = true)
  /\ (forall f, is_finite f = true ->
                ema20 pair = VNum f -> ema100 pair = VNum f ->
                isBullish pair = false).
Proof.
  assert (H0 : truthy (ema20 pair) = false \/ truthy (ema100 pair) = false ->
               diff pair = 0%float).
  { intros H. unfold diff. by destruct H as [-> | ->]; rewrite ?andb_false_r. }
  split; [|split].
  - intros H. unfold isBullish, distance. rewrite (H0 H). by vm_compute.
  - intros Hb. destruct (truthy (ema20 pair)) eqn:E20, (truthy (ema100 pair)) eqn:E100;
      try done; unfold isBullish in Hb; rewrite H0 in Hb by auto; by vm_compute in Hb.
  - intros f Hf H20 H100. unfold isBullish.
    assert (Hd : diff pair = 0%float).
    { unfold diff. rewrite H20, H100. cbn [ToNumber].
      rewrite (zero_sub_self f Hf). by destruct (_ && _). }
    rewrite Hd. by vm_compute.
Qed.

(** *** The theorems at work on the BTCUSDT feed *)

Lemma st1_reachable : reachable Scenario.fetchBtc 1000000 Scenario.st1.
Proof.
  apply (reach_message Scenario.fetchBtc 0 (firstRender false)
                       (Scenario.at_time 1000000 "a") (Scenario.tick 1 100 false)).
  - apply reach_init.
  - simpl. lia.
Defined.

Lemma st1_btc :
  pairsData Scenario.st1 !! "BTCUSDT"%string
  = Some (applyTick Scenario.btc (Scenario.tick 1 100 false)).
Proof. vm_compute. reflexivity. Defined.

Lemma short_btc :
  pairsData {| pairsData := initPairs Scenario.fetchShort; alerts := [] |}
    !! s (Scenario.tick 1 100 false)
  = Some (seedPair "btcusdt.p" Scenario.shortSeed).
Proof. vm_compute. reflexivity. Defined.

Lemma run_dom_witness :
  pairsData (run (firstRender false)
                 [ (Scenario.at_time 5 "a", Scenario.tick 1 200 true) ]
                 Scenario.st0).1 !! "ETHUSDT"%string
  = pairsData Scenario.st0 !! "ETHUSDT"%string.
Proof.
  destruct (run_dom (firstRender false)
                    [ (Scenario.at_time 5 "a", Scenario.tick 1 200 true) ]
                    Scenario.st0) as [_ H].
  apply H. constructor; [|constructor]. simpl. discriminate.
Defined.

Lemma reachable_shape_witness :
  lastTouch (applyTick Scenario.btc (Scenario.tick 1 100 false)) = None
  /\ exists klines, Scenario.fetchBtc "BTCUSDT" = Rows klines.
Proof.
  destruct (reachable_shape Scenario.fetchBtc 1000000 Scenario.st1 st1_reachable)
    as [H _].
  destruct (H "BTCUSDT"%string _ st1_btc) as (_ & Hl & _ & Hf).
  split; [exact Hl | exact Hf].
Defined.

Lemma nan_instrument_silent_witness :
  callsOf (firstRender false) (Scenario.at_time 5 "a") (Scenario.tick 1 100 false)
          {| pairsData := initPairs Scenario.fetchShort; alerts := [] |}
  = [].
Proof.
  destruct (nan_instrument_silent
              (firstRender false) (Scenario.at_time 5 "a") (Scenario.tick 1 100 false)
              {| pairsData := initPairs Scenario.fetchShort; alerts := [] |}
              (seedPair "btcusdt.p" Scenario.shortSeed) eq_refl short_btc)
    as [Hc _].
  - left. vm_compute. reflexivity.
  - exact Hc.
Defined.

Lemma nan_close_tick_witness :
  callsOf (firstRender false) (Scenario.at_time 5 "a") (Scenario.tick 1 nan false)
          Scenario.st0
  = [].
Proof.
  destruct (nan_close_tick (firstRender false) (Scenario.at_time 5 "a")
                           (Scenario.tick 1 nan false) Scenario.st0 Scenario.btc
                           eq_refl st0_btc eq_refl) as [Hc _].
  rewrite Hc. vm_compute. reflexivity.
Defined.

Lemma signal_always_recorded_witness :
  exists ty,
    alerts (onmessage (firstRender false) (Scenario.at_time 1000000 "a")
                      (Scenario.tick 1 100 false) Scenario.st0).1
    = newAlertOf (Scenario.at_time 1000000 "a") "btcusdt.p" 100 ty :: [].
Proof.
  destruct (signal_always_recorded
              Scenario.fetchBtc 0 Scenario.st0 false (Scenario.at_time 1000000 "a")
              (Scenario.tick 1 100 false) Scenario.btc
              (reach_init Scenario.fetchBtc 0) eq_refl st0_btc)
    as [_ [ty H]].
  - vm_compute. reflexivity.
  - exists ty. exact H.
Defined.

Lemma history_window_witness :
  exists klines,
    Scenario.fetchBtc "BTCUSDT" = Rows klines
    /\ length klines
       <= length (history (applyTick Scenario.btc (Scenario.tick 1 100 false))).
Proof.
  destruct (history_window Scenario.fetchBtc 1000000 Scenario.st1 "BTCUSDT" _
                           st1_reachable st1_btc) as (klines & Hf & Hlo & _).
  exists klines. split; [exact Hf | exact Hlo].
Defined.

Lemma cross_alternates_witness : bearish_cross = flip bullish_cross.
Proof.
  apply (cross_alternates (firstRender false) (firstRender false) (firstRender false)
                          (Scenario.at_time 5 "a") (Scenario.at_time 6 "b")
                          (Scenario.tick 1 200 false) (Scenario.tick 2 0 false)
                          [] Scenario.st0
                          "btcusdt.p" "btcusdt.p" 200 0).
  - reflexivity.
  - constructor.
  - vm_compute. reflexivity.
  - discriminate.
  - vm_compute. reflexivity.
  - discriminate.
Defined.

Lemma seed_ticks_match_batch_witness :
  exists updated,
    pairsData (run (firstRender false)
                   [ (Scenario.at_time 5 "a", Scenario.tick 1 200 false) ]
                   {| pairsData := initPairs Scenario.fetchBtc; alerts := [] |}).1
      !! "BTCUSDT"%string = Some updated
    /\ ema20 updated
       = last (calculateEMA ((close <$> Scenario.flatSeed) ++ [200%float]) 20).
Proof.
  destruct (seed_ticks_match_batch
              Scenario.fetchBtc "btcusdt.p" "BTCUSDT" Scenario.flatSeed
              (firstRender false)
              [ (Scenario.at_time 5 "a", Scenario.tick 1 200 false) ])
    as (updated & Hu & H20 & _).
  - vm_compute. set_solver.
  - reflexivity.
  - vm_compute. lia.
  - constructor; [split; reflexivity|constructor].
  - exists updated. split; [exact Hu | exact H20].
Defined.

Lemma card_degenerate_witness :
  isBullish (seedPair "btcusdt.p" Scenario.shortSeed) = false.
Proof.
  destruct (card_degenerate (seedPair "btcusdt.p" Scenario.shortSeed)) as [H _].
  destruct H as (_ & Hb & _); [left; vm_compute; reflexivity|exact Hb].
Defined.

End AppMore.

(** ** The handler with its exceptions: facts *)

Module FallibleFacts.
Import JS Utils Types App Spec AppFacts.

(** *** Reading the store *)

Lemma read_own (prev : gmap string PairStatus) (sym : string) (current : PairStatus) :
  prev !! sym = Some current -> Fallible.read prev sym = Fallible.Own current.
Proof. intros H. unfold Fallible.read. by rewrite H. Qed.

Lemma read_missing (prev : gmap string PairStatus) (sym : string) :
  prev !! sym = None -> sym ∉ Fallible.objectPrototypeKeys ->
  Fallible.read prev sym = Fallible.Missing.
Proof. intros H Hn. unfold Fallible.read. rewrite H. by rewrite bool_decide_eq_false_2. Qed.

Lemma read_inherited (prev : gmap string PairStatus) (sym : string) :
  prev !! sym = None -> sym ∈ Fallible.objectPrototypeKeys ->
  Fallible.read prev sym = Fallible.Inherited.
Proof. intros H Hn. unfold Fallible.read. rewrite H. by rewrite bool_decide_eq_true_2. Qed.

(** *** The handler when nothing throws *)

Lemma perform_returns (ctorThrows : bool) (r : Render) (env : Env)
      (calls : list Call) (log : list AlertEvent) :
  r_granted r && ctorThrows = false ->
  Fallible.perform ctorThrows r env calls log = (false, App.perform r env calls log).
Proof.
  intros Hok. revert log. induction calls as [|[[sym price] ty] calls IH]; intros log;
    [done|].
  cbn [Fallible.perform App.perform].
  unfold Fallible.triggerAlert, App.triggerAlert.
  destruct (r_granted r), ctorThrows; try discriminate Hok; cbn [app];
    rewrite IH; by destruct (App.perform _ _ _ _).
Qed.

(** On a message whose symbol is in the store or names nothing at all, and
    with a constructor that returns (or without permission), the handler
    returns what [App.onmessage] gives. *)
Lemma onmessage_returns (ctorThrows : bool) (r : Render) (env : Env)
      (msg : Message) (st : State) :
  r_granted r && ctorThrows = false ->
  (pairsData st !! s msg = None -> s msg ∉ Fallible.objectPrototypeKeys) ->
  Fallible.onmessage ctorThrows r env msg st
  = Fallible.Returned (App.onmessage r env msg st).1 (App.onmessage r env msg st).2.
Proof.
  intros Hok Hkey. unfold Fallible.onmessage, App.onmessage.
  destruct (String.eqb (e msg) "kline"); [|done].
  unfold Fallible.updater, App.updater.
  destruct (pairsData st !! s msg) as [current|] eqn:Hcur.
  - rewrite (read_own _ _ _ Hcur). cbv zeta.
    rewrite (perform_returns _ _ _ _ _ Hok).
    by destruct (App.perform _ _ _ _).
  - rewrite read_missing by auto. by destruct st.
Qed.

Lemma perform_throws (r : Render) (env : Env) (sym : string) (price : float)
      (ty : AlertType) (log : list AlertEvent) :
  r_granted r = true ->
  Fallible.perform true r env [ (sym, price, ty) ] log
  = (true, (newAlertOf env sym price ty :: take 49 log, [])).
Proof.
  intros Hg. cbn [Fallible.perform]. unfold Fallible.triggerAlert. by rewrite Hg.
Qed.

(** The handler on a stored instrument, in terms of the calls it makes. *)
Lemma onmessage_own (ctorThrows : bool) (r : Render) (env : Env)
      (msg : Message) (st : State) (current : PairStatus) :
  e msg = "kline"%string ->
  pairsData st !! s msg = Some current ->
  Fallible.onmessage ctorThrows r env msg st
  = let '(threw, (log, fx)) :=
      Fallible.perform ctorThrows r env (tickCalls r env current msg) (alerts st) in
    if threw then Fallible.Threw log fx
    else Fallible.Returned
           {| pairsData := <[s msg := applyTick current msg]> (pairsData st);
              alerts := log |} fx.
Proof.
  intros He Hcur. unfold Fallible.onmessage, Fallible.updater.
  rewrite He, (read_own _ _ _ Hcur). simpl String.eqb. cbv zeta.
  rewrite alertBlock_emitted. reflexivity.
Qed.

(** *** A notification that fails *)

(** C10, on the running engine. BTCUSDT is seeded flat at 100 and a final
    candle closes at 200, a bullish cross.  The store with the entry of the
    tick is returned when the alert is recorded without permission, when it
    is recorded with a notification that is shown, and when the signal is
    suppressed as a duplicate.  With permission granted and a constructor
    that throws, the alert has been requested and the updater returns no
    store: whether the instrument state of the tick is written depends on
    the alert. *)
Theorem notification_failure_loses_tick :
  let msg := Scenario.tick 1 200 true in
  let env := Scenario.at_time 1000000 "a" in
  let alert := newAlertOf env "btcusdt.p" 200 bullish_cross in
  let store := <["BTCUSDT"%string := applyTick Scenario.btc msg]> (pairsData Scenario.st0) in
  let recent := {| id := "z"; a_symbol := "btcusdt.p"; timestamp := 999000;
                   a_price := 100; type := touch |} in
  pairsData Scenario.st0 !! "BTCUSDT"%string = Some Scenario.btc
  /\ applyTick Scenario.btc msg <> Scenario.btc
  /\ Fallible.onmessage true (firstRender false) env msg Scenario.st0
     = Fallible.Returned {| pairsData := store; alerts := [alert] |} [PlayAudio]
  /\ Fallible.onmessage false (firstRender true) env msg Scenario.st0
     = Fallible.Returned {| pairsData := store; alerts := [alert] |}
                         [ShowNotification bullish_cross "BTCUSDT.P" 200; PlayAudio]
  /\ Fallible.onmessage true {| r_alerts := [recent]; r_granted := true |} env msg
                        Scenario.st0
     = Fallible.Returned {| pairsData := store; alerts := [] |} []
  /\ Fallible.onmessage true (firstRender true) env msg Scenario.st0
     = Fallible.Threw [alert] [].
Proof.
  cbv zeta. split; [by vm_compute|]. split.
  - intros H.
    apply (f_equal (fun p => match price p with
                             | VNum f => (f =? 100)%float
                             | _ => false
                             end)) in H.
    vm_compute in H. discriminate H.
  - split; [by vm_compute|]. split; [by vm_compute|]. split; by vm_compute.
Qed.

(** The same for every signal: with permission granted and a constructor
    that throws, a tick that makes a call returns no store. *)
Lemma signal_throws (r : Render) (env : Env) (msg : Message) (st : State)
      (current : PairStatus) (sym : string) (price : float) (ty : AlertType) :
  e msg = "kline"%string ->
  pairsData st !! s msg = Some current ->
  tickCalls r env current msg = [ (sym, price, ty) ] ->
  r_granted r = true ->
  Fallible.onmessage true r env msg st
  = Fallible.Threw (newAlertOf env sym price ty :: take 49 (alerts st)) [].
Proof.
  intros He Hcur Hcalls Hg.
  rewrite (onmessage_own true r env msg st current He Hcur), Hcalls.
  by rewrite perform_throws.
Qed.

(** *** Messages that are ignored, and symbols found on the prototype *)

(** X8. A message that is not a kline, or whose symbol is neither in the
    store nor the name of a member of [Object.prototype], changes nothing
    and has no effect.  A kline whose symbol is not in the store but names
    such a member ([toString], [constructor], [__proto__], ...) makes the
    updater throw, with no alert and no effect. *)
Theorem onmessage_ignored_or_throws (ctorThrows : bool) (r : Render) (env : Env)
        (msg : Message) (st : State) :
  (e msg <> "kline"%string
   \/ (pairsData st !! s msg = None /\ s msg ∉ Fallible.objectPrototypeKeys) ->
   Fallible.onmessage ctorThrows r env msg st = Fallible.Returned st [])
  /\ (e msg = "kline"%string ->
      pairsData st !! s msg = None ->
      s msg ∈ Fallible.objectPrototypeKeys ->
      Fallible.onmessage ctorThrows r env msg st = Fallible.Threw (alerts st) []).
Proof.
  split.
  - intros [He|[Hcur Hkey]]; unfold Fallible.onmessage.
    + by destruct (String.eqb_spec (e msg) "kline").
    + destruct (String.eqb (e msg) "kline"); [|done].
      unfold Fallible.updater. by rewrite read_missing.
  - intros He Hcur Hkey. unfold Fallible.onmessage, Fallible.updater.
    rewrite He. simpl String.eqb. by rewrite read_inherited.
Qed.

Lemma onmessage_ignored_or_throws_witness :
  Fallible.onmessage true (firstRender true) (Scenario.at_time 5 "a")
                     (mkMessage "kline" "DOGEUSDT" 1 1 1 1 1 true) Scenario.st0
  = Fallible.Returned Scenario.st0 []
  /\ Fallible.onmessage true (firstRender true) (Scenario.at_time 5 "a")
                        (mkMessage "kline" "toString" 1 1 1 1 1 true) Scenario.st0
     = Fallible.Threw [] [].
Proof.
  split.
  - apply (onmessage_ignored_or_throws true (firstRender true) (Scenario.at_time 5 "a")
             (mkMessage "kline" "DOGEUSDT" 1 1 1 1 1 true) Scenario.st0).
    right. split; [vm_compute; reflexivity|].
    apply (bool_decide_unpack _). vm_compute. exact I.
  - apply (onmessage_ignored_or_throws true (firstRender true) (Scenario.at_time 5 "a")
             (mkMessage "kline" "toString" 1 1 1 1 1 true) Scenario.st0).
    + reflexivity.
    + vm_compute. reflexivity.
    + apply (bool_decide_unpack _). vm_compute. exact I.
Defined.

(** *** How a message ends *)

(** X11. A message ends in one of four ways.  The updater returns with the
    alert log as it was and no effect; or it returns with exactly one alert
    in front of the first 49 entries of the log and the sound played once,
    after the notification when permission is granted (the constructor then
    returned); or it throws on a symbol found on [Object.prototype], with
    the log as it was and no effect; or, permission being granted, the
    constructor throws: the alert has been put in front of the log, nothing
    is shown, no sound is played and no store is returned.  The alert
    carries the drawn identifier, the upper-cased symbol of the ticked
    instrument, the time read in [triggerAlert] and the close of the
    tick. *)
Theorem onmessage_outcomes (ctorThrows : bool) (r : Render) (env : Env)
        (msg : Message) (st : State) :
  match Fallible.onmessage ctorThrows r env msg st with
  | Fallible.Returned st' fx =>
      (alerts st' = alerts st /\ fx = [])
      \/ (exists current ty,
            pairsData st !! s msg = Some current
            /\ r_granted r && ctorThrows = false
            /\ alerts st'
               = {| id := random_id env;
                    a_symbol := toUpperCase (symbol current);
                    timestamp := now_alert env;
                    a_price := k_c msg;
                    type := ty |} :: take 49 (alerts st)
            /\ fx = (if r_granted r
                     then [ShowNotification ty (toUpperCase (symbol current)) (k_c msg)]
                     else [])
                    ++ [PlayAudio])
  | Fallible.Threw log fx =>
      fx = []
      /\ ((log = alerts st
           /\ pairsData st !! s msg = None
           /\ s msg ∈ Fallible.objectPrototypeKeys)
          \/ (exists current ty,
                pairsData st !! s msg = Some current
                /\ r_granted r = true /\ ctorThrows = true
                /\ log
                   = {| id := random_id env;
                        a_symbol := toUpperCase (symbol current);
                        timestamp := now_alert env;
                        a_price := k_c msg;
                        type := ty |} :: take 49 (alerts st)))
  end.
Proof.
  destruct (decide (e msg = "kline"%string)) as [He|He].
  2:{ unfold Fallible.onmessage. destruct (String.eqb_spec (e msg) "kline"); [done|].
      by left. }
  destruct (pairsData st !! s msg) as [current|] eqn:Hcur.
  - rewrite (onmessage_own ctorThrows r env msg st current He Hcur).
    unfold tickCalls, detect.
    match goal with
    | |- context [emitted ?a ?b ?c ?d ?f ?g] =>
        destruct (emitted_cases a b c d f g) as [->|[ty ->]]
    end.
    + cbn [Fallible.perform]. by left.
    + cbn [Fallible.perform]. unfold Fallible.triggerAlert.
      destruct (r_granted r) eqn:Hg, ctorThrows eqn:Ht; cbn [app].
      * split; [done|]. right. by exists current, ty.
      * right. by exists current, ty.
      * right. by exists current, ty.
      * right. by exists current, ty.
  - unfold Fallible.onmessage, Fallible.updater. rewrite He. simpl String.eqb.
    destruct (decide (s msg ∈ Fallible.objectPrototypeKeys)) as [Hk|Hk].
    + rewrite read_inherited by done. split; [done|]. by left.
    + rewrite read_missing by done. by left.
Qed.

End FallibleFacts.
